(** * Brain-Atlas-Checker: a shallow embedding of [atlas_checker.py]

    The development follows the source file top to bottom:
    - the Python values and exceptions the program manipulates;
    - [get_unique_values_from_tiff_dir], the per-directory image reader;
    - [get_csv_ids], the catalog loader;
    - [scan_for_label_directories], the scan / extract / reconcile loop;
    - [SetEncoder] and [main], the two output modes.

    Sets of Python integers are [gset Z].  A Python [dict] is an
    association list in insertion order with unique keys.  Printing and
    file-system reads are recorded in an event log carried by a small
    writer/exception monad. *)

From Stdlib Require Import ZArith Ascii String List Permutation Sorted Lia.
From stdpp Require Import gmap strings list sorting pretty.

Set Warnings "-register-all,-clear-no-such-hyp".
Local Open Scope Z_scope.

(* ===================================================================== *)
(** * Python exceptions, events and the effect monad                      *)
(* ===================================================================== *)

(** The exception classes that can reach the code under study.  Each one
    carries the text of [str(e)]. *)
Inductive exn : Type :=
| FileNotFoundError (msg : string)
| OSError (msg : string)
| ValueError (msg : string)
| TypeError (msg : string)
| KeyError (msg : string)
| OverflowError (msg : string)
| DecodeError (msg : string)    (* whatever tifffile raises on a bad file *)
| UsageError (msg : string)     (* click rejects the command line *)
| Abort.                        (* click.Abort *)

Definition exn_str (e : exn) : string :=
  match e with
  | FileNotFoundError m | OSError m | ValueError m | TypeError m
  | OverflowError m | DecodeError m | UsageError m => m
  | KeyError m => "'" +:+ m +:+ "'"
  | Abort => ""
  end.

(** The document handed to the JSON writer, before it is laid out as
    text. *)
Inductive json : Type :=
| JInt (z : Z)
| JArray (items : list json)
| JObject (members : list (string * json)).

(** Observable effects, in program order. *)
Inductive event : Type :=
| Print (line : string)          (* print(...) *)
| OpenCatalog (path : string)    (* open(csv_path) *)
| Traverse (root : string)       (* the rglob generator starts walking *)
| ListImages (dir : string)      (* Path(dir).glob("*.tif") *)
| Decode (file : string)         (* tifffile.TiffFile(file).asarray() *)
| Echo (line : string)           (* click.echo(line) *)
| EchoErr (line : string)        (* click.echo(line, err=True) *)
| WriteJson (path : string) (doc : json).   (* json.dump(..., f) *)

(** A computation emits events and then either raises or returns. *)
Definition M (A : Type) : Type := (list event * (exn + A))%type.

Definition ret {A} (a : A) : M A := ([], inr a).
Definition raise {A} (e : exn) : M A := ([], inl e).
Definition tell (ev : event) : M unit := ([ev], inr tt).
Definition bind {A B} (f : A → M B) (m : M A) : M B :=
  match m with
  | (l, inl e) => (l, inl e)
  | (l, inr a) => let '(l', r) := f a in (l ++ l', r)
  end.
#[export] Instance M_ret : MRet M := @ret.
#[export] Instance M_bind : MBind M := @bind.
(** [try: m except Exception as e: h e] *)
Definition try_except {A} (m : M A) (h : exn → M A) : M A :=
  match m with
  | (l, inl e) => let '(l', r) := h e in (l ++ l', r)
  | (l, inr a) => (l, inr a)
  end.
Definition lift {A} (r : exn + A) : M A := ([], r).

Definition events {A} (m : M A) : list event := fst m.
Definition outcome {A} (m : M A) : exn + A := snd m.

(* ===================================================================== *)
(** * Image samples and [int(value)]                                      *)
(* ===================================================================== *)

(** One element of [image_data.flatten()].  An integer-typed pixel is its
    value; a floating-point pixel is either a finite binary fraction,
    written exactly as [num / den], a NaN or an infinity. *)
Inductive sample : Type :=
| SInt (z : Z)
| SFloat (num : Z) (den : positive)
| SNaN
| SInf (negative : bool).

(** [int(value)]: an integer converts to itself, a finite float is
    truncated toward zero, NaN raises [ValueError] and an infinity raises
    [OverflowError]. *)
Definition int_of_sample (v : sample) : exn + Z :=
  match v with
  | SInt z => inr z
  | SFloat n d => inr (Z.quot n (Z.pos d))
  | SNaN => inl (ValueError "cannot convert float NaN to integer")
  | SInf _ => inl (OverflowError "cannot convert float infinity to integer")
  end.

(** Whether the sample denotes a whole number. *)
Definition has_fraction (v : sample) : bool :=
  match v with
  | SFloat n d => negb (Z.rem n (Z.pos d) =? 0)
  | _ => false
  end.

(* ===================================================================== *)
(** * [int(text)] on strings                                              *)
(* ===================================================================== *)

(** The text of a field is taken as ASCII: the decimal digits and white
    space that Unicode has beyond ASCII are left out of the embedding. *)

(** The white space [int] strips: tab, line feed, vertical tab, form feed,
    carriage return and space. *)
Definition py_isspace (c : ascii) : bool :=
  let n := nat_of_ascii c in
  (((9 <=? n) && (n <=? 13)) || (n =? 32))%nat.

Definition digit_value (c : ascii) : option Z :=
  let n := nat_of_ascii c in
  if ((48 <=? n) && (n <=? 57))%nat then Some (Z.of_nat n - 48) else None.

Definition is_underscore (c : ascii) : bool := (nat_of_ascii c =? 95)%nat.

Fixpoint lstrip (s : list ascii) : list ascii :=
  match s with
  | c :: s' => if py_isspace c then lstrip s' else s
  | [] => []
  end.

(** The default of [sys.get_int_max_str_digits()]. *)
Definition int_max_str_digits : N := 4300.

(** Reads the digits that follow an already consumed digit: more digits,
    single underscores between digits, then only trailing white space.
    Returns the value and the number of digits seen. *)
Fixpoint digits_loop (acc : Z) (count : N) (s : list ascii) : option (Z * N) :=
  match s with
  | [] => Some (acc, count)
  | c :: s' =>
      match digit_value c with
      | Some d => digits_loop (10 * acc + d) (count + 1)%N s'
      | None =>
          if is_underscore c then
            match s' with
            | c' :: s'' =>
                match digit_value c' with
                | Some d => digits_loop (10 * acc + d) (count + 1)%N s''
                | None => None
                end
            | [] => None
            end
          else if forallb py_isspace s then Some (acc, count)
          else None
      end
  end.

Definition parse_magnitude (s : list ascii) : option Z :=
  match s with
  | c :: s' =>
      match digit_value c with
      | Some d =>
          match digits_loop d 1%N s' with
          | Some (v, count) =>
              if (count <=? int_max_str_digits)%N then Some v else None
          | None => None
          end
      | None => None
      end
  | [] => None
  end.

(** [int(text)] in base 10; [None] stands for the [ValueError]. *)
Definition parse_int (text : string) : option Z :=
  match lstrip (list_ascii_of_string text) with
  | c :: s' =>
      if (nat_of_ascii c =? 45)%nat then Z.opp <$> parse_magnitude s'
      else if (nat_of_ascii c =? 43)%nat then parse_magnitude s'
      else parse_magnitude (c :: s')
  | [] => None
  end.

(* ===================================================================== *)
(** * [csv.DictReader] rows                                               *)
(* ===================================================================== *)

(** The values a [DictReader] row can hold: a field, [None] (the
    [restval] of a short record) or the list of surplus fields stored
    under the [restkey]. *)
Inductive cell : Type :=
| CStr (s : string)
| CNone
| CList (l : list string).

(** Keys are field names; the [restkey] is [None]. *)
Abbreviation row := (gmap (option string) cell).

(** [dict(zip(fieldnames, record))]: a later duplicate name wins. *)
Fixpoint zip_dict (fieldnames record : list string) (d : row) : row :=
  match fieldnames, record with
  | k :: ks, v :: vs => zip_dict ks vs (<[Some k := CStr v]> d)
  | _, _ => d
  end.

Definition fill_restval (keys : list string) (d : row) : row :=
  foldl (fun acc k => <[Some k := CNone]> acc) d keys.

(** [DictReader.__next__] for one non-empty record. *)
Definition make_row (fieldnames record : list string) : row :=
  let d := zip_dict fieldnames record ∅ in
  let lf := length fieldnames in
  let lr := length record in
  if (lf <? lr)%nat then <[None := CList (drop lf record)]> d
  else if (lr <? lf)%nat then fill_restval (drop lr fieldnames) d
  else d.

(** [int(row["id"])] once the cell has been fetched. *)
Definition int_of_cell (c : cell) : exn + Z :=
  match c with
  | CStr s =>
      match parse_int s with
      | Some z => inr z
      | None =>
          inl (ValueError ("invalid literal for int() with base 10: '" +:+ s +:+ "'"))
      end
  | CNone =>
      inl (TypeError "int() argument must be a string, a bytes-like object or a real number, not 'NoneType'")
  | CList _ =>
      inl (TypeError "int() argument must be a string, a bytes-like object or a real number, not 'list'")
  end.

Definition cell_str (c : cell) : string :=
  match c with
  | CStr s => s
  | CNone => "None"
  | CList _ => "[...]"
  end.

(* ===================================================================== *)
(** * The catalog file and [get_csv_ids]                                  *)
(* ===================================================================== *)

(** How the record stream of [csv.reader] ends: normally, or with a
    [csv.Error] raised while reading the next record. *)
Inductive reader_end : Type :=
| EndOfFile
| ReaderError (msg : string).

(** What [csv_path] resolves to.  [CsvFile records ending] is a readable
    file seen through [csv.reader]: [records] are the records delivered,
    header first, a blank line being the empty record. *)
Inductive catalog_file : Type :=
| Missing
| Unopenable (msg : string)
| CsvFile (records : list (list string)) (ending : reader_end).

(** The [for row in reader] loop of [get_csv_ids], run over the records
    that follow the header. *)
Fixpoint load_rows (fieldnames : list string) (records : list (list string))
    (ending : reader_end) (unique_ids : gset Z) : exn + gset Z :=
  match records with
  | [] =>
      match ending with
      | EndOfFile => inr unique_ids
      | ReaderError m => inl (ValueError ("Error parsing CSV file: " +:+ m))
      end
  | [] :: rest => load_rows fieldnames rest ending unique_ids
  | record :: rest =>
      match make_row fieldnames record !! Some "id" with
      | None => inl (KeyError "id")
      | Some c =>
          match int_of_cell c with
          | inr z => load_rows fieldnames rest ending (unique_ids ∪ {[z]})
          | inl (ValueError _) =>
              inl (ValueError ("Invalid ID value in CSV: " +:+ cell_str c))
          | inl e => inl e
          end
      end
  end.

Definition get_csv_ids (csv_path : string) (f : catalog_file) : M (gset Z) :=
  match f with
  | Missing => raise (FileNotFoundError ("CSV file not found at " +:+ csv_path))
  | Unopenable m => tell (OpenCatalog csv_path);; raise (OSError m)
  | CsvFile records ending =>
      tell (OpenCatalog csv_path);;
      lift match records with
           | [] =>
               match ending with
               | EndOfFile => inr ∅
               | ReaderError m => inl (ValueError ("Error parsing CSV file: " +:+ m))
               end
           | fieldnames :: rest => load_rows fieldnames rest ending ∅
           end
  end.

(* ===================================================================== *)
(** * The directory tree and path arithmetic                              *)
(* ===================================================================== *)

(** A node below the scan root.  A file carries what [tifffile] makes of
    it: the text of the exception it raises, or the flattened samples of
    all its pages.  A directory carries its named entries. *)
Inductive node : Type :=
| File (decoded : string + list sample)
| Dir (entries : list (string * node)).

Definition is_dir (n : node) : bool :=
  match n with Dir _ => true | File _ => false end.

(** [parent / name] on the text of a path. *)
Definition child (parent name : string) : string :=
  if decide (parent = ".") then name
  else if decide (parent = "/") then "/" +:+ name
  else parent +:+ "/" +:+ name.

Definition is_absolute (p : string) : bool :=
  match p with
  | String c _ => bool_decide (c = "/"%char)
  | EmptyString => false
  end.

(** [str(p.absolute())] *)
Definition absolute (cwd p : string) : string :=
  if is_absolute p then p else child cwd p.

Definition ends_with (suffix s : string) : bool :=
  String.prefix (String.rev suffix) (String.rev s).

(** The name test of [glob("*.tif")]. *)
Definition is_tif (name : string) : bool := ends_with ".tif" name.

(** The reserved name of a label directory. *)
Definition target_name : string := "atlaslabel_def_origspace".

(** [Path(p).rglob(name)] for a name without wildcards: every entry
    called [name] in the directory at [p] and, recursively, in each of its
    subdirectories.  The entries are yielded with their paths, files and
    directories alike. *)
Fixpoint rglob (name p : string) (n : node) : list (string * node) :=
  match n with
  | File _ => []
  | Dir entries =>
      ((fun e : string * node => (child p e.1, e.2)) <$>
         filter (fun e : string * node => e.1 = name) entries)
      ++ (fix walk (es : list (string * node)) : list (string * node) :=
            match es with
            | [] => []
            | (nm, c) :: es' => rglob name (child p nm) c ++ walk es'
            end) entries
  end.

(* ===================================================================== *)
(** * [get_unique_values_from_tiff_dir]                                   *)
(* ===================================================================== *)

(** [tifffile.TiffFile(file_path).asarray().flatten()] *)
Definition decode (file_path : string) (n : node) : M (list sample) :=
  tell (Decode file_path);;
  match n with
  | File (inr samples) => mret samples
  | File (inl msg) => raise (DecodeError msg)
  | Dir _ =>
      raise (OSError ("[Errno 21] Is a directory: '" +:+ file_path +:+ "'"))
  end.

(** The loop over the matching files.  [unique_values] holds the samples
    put into the set so far; the set's own order and the collapse of equal
    samples play no part in what follows (see [coerce_values_same_elements]). *)
Fixpoint read_images (dir : string) (files : list (string * node))
    (unique_values : list sample) : M (list sample) :=
  match files with
  | [] => mret unique_values
  | (name, n) :: rest =>
      let file_path := child dir name in
      uv ← try_except
             (image_data ← decode file_path n;
              mret (unique_values ++ image_data))
             (fun e =>
                tell (Print ("Error processing file " +:+ file_path +:+ ": "
                             +:+ exn_str e));;
                mret unique_values);
      read_images dir rest uv
  end.

Definition tif_files (n : node) : list (string * node) :=
  match n with
  | Dir entries => filter (fun e : string * node => is_tif e.1) entries
  | File _ => []
  end.

Definition get_unique_values_from_tiff_dir (directory_path : string)
    (n : node) : M (list sample) :=
  tell (ListImages directory_path);;
  read_images directory_path (tif_files n) [].

(* ===================================================================== *)
(** * [scan_for_label_directories]                                        *)
(* ===================================================================== *)

(** The loop [for value in tiff_values: try: tiff_integers.add(int(value))
    except (ValueError, TypeError): continue]. *)
Fixpoint coerce_values (tiff_values : list sample) (tiff_integers : gset Z)
    : exn + gset Z :=
  match tiff_values with
  | [] => inr tiff_integers
  | value :: rest =>
      match int_of_sample value with
      | inr z => coerce_values rest (tiff_integers ∪ {[z]})
      | inl (ValueError _) | inl (TypeError _) => coerce_values rest tiff_integers
      | inl e => inl e
      end
  end.

(** [tiff_integers - csv_ids] *)
Definition reconcile (tiff_integers csv_ids : gset Z) : gset Z :=
  tiff_integers ∖ csv_ids.

(** A [dict] with string keys, in insertion order. *)
Abbreviation dict V := (list (string * V)).

(** [d[k] = v] *)
Fixpoint dict_set {V} (k : string) (v : V) (d : dict V) : dict V :=
  match d with
  | [] => [(k, v)]
  | (k', v') :: d' =>
      if decide (k = k') then (k, v) :: d' else (k', v') :: dict_set k v d'
  end.

Fixpoint dict_get {V} (k : string) (d : dict V) : option V :=
  match d with
  | [] => None
  | (k', v) :: d' => if decide (k = k') then Some v else dict_get k d'
  end.

(** The body of the [for directory in target_dirs] loop for an entry that
    is a directory. *)
Definition process_directory (cwd : string) (csv_ids : gset Z)
    (directory : string) (n : node) (results : dict (gset Z))
    : M (dict (gset Z)) :=
  try_except
    (let abs_path := absolute cwd directory in
     tiff_values ← get_unique_values_from_tiff_dir directory n;
     tiff_integers ← lift (coerce_values tiff_values ∅);
     let results' := dict_set abs_path (reconcile tiff_integers csv_ids) results in
     tell (Print ("Successfully processed directory: " +:+ abs_path));;
     mret results')
    (fun e =>
       tell (Print ("Error processing directory " +:+ directory +:+ ": "
                    +:+ exn_str e));;
       mret results).

Fixpoint scan_loop (cwd : string) (csv_ids : gset Z)
    (target_dirs : list (string * node)) (results : dict (gset Z))
    : M (dict (gset Z)) :=
  match target_dirs with
  | [] => mret results
  | (directory, n) :: rest =>
      if is_dir n then
        results' ← process_directory cwd csv_ids directory n results;
        scan_loop cwd csv_ids rest results'
      else scan_loop cwd csv_ids rest results
  end.

(** What the two paths given to the program resolve to. *)
Record world : Type := {
  cwd : string;
  root : option node;          (* [None]: the root path does not exist *)
  catalog : catalog_file;
  output_writable : bool       (* whether [open(output, "w")] succeeds *)
}.

Definition scan_for_label_directories (w : world)
    (root_path csv_path : string) : M (dict (gset Z)) :=
  match root w with
  | None => raise (ValueError ("Root path " +:+ root_path +:+ " does not exist"))
  | Some tree =>
      csv_ids ← get_csv_ids csv_path (catalog w);
      tell (Traverse root_path);;
      scan_loop (cwd w) csv_ids (rglob target_name root_path tree) []
  end.

(* ===================================================================== *)
(** * Set iteration, [sorted] and [SetEncoder]                            *)
(* ===================================================================== *)

(** The order in which the runtime iterates over a set of integers.
    Python leaves it unspecified: all that is guaranteed is that every
    element is produced exactly once. *)
Class SetOrder : Type := {
  set_iter : gset Z → list Z;
  set_iter_perm : ∀ s, set_iter s ≡ₚ elements s
}.

(** [sorted(s)] *)
Definition sorted `{SetOrder} (s : gset Z) : list Z :=
  merge_sort Z.le (set_iter s).

(** [SetEncoder.default(obj)] on a set: [list(obj)]. *)
Definition SetEncoder_default `{SetOrder} (obj : gset Z) : list Z :=
  set_iter obj.

(** The document [json.dump(results, f, cls=SetEncoder)] writes. *)
Definition json_dump `{SetOrder} (results : dict (gset Z)) : json :=
  JObject ((fun e : string * gset Z =>
              (e.1, JArray (JInt <$> SetEncoder_default e.2))) <$> results).

(** An iteration order that happens to be ascending. *)
Definition ascending_iter (s : gset Z) : list Z := merge_sort Z.le (elements s).

(** The order of a fresh eight-slot hash table without collisions: by
    slot [z mod 8], the slot of a small non-negative integer. *)
Definition slot_le (x y : Z) : Prop :=
  x mod 8 < y mod 8 ∨ (x mod 8 = y mod 8 ∧ x ≤ y).
#[export] Instance slot_le_dec : RelDecision slot_le.
Proof. intros x y. unfold slot_le. apply _. Defined.
Definition slot_iter (s : gset Z) : list Z := merge_sort slot_le (elements s).

Definition ascending_order : SetOrder :=
  {| set_iter := ascending_iter;
     set_iter_perm := fun s => merge_sort_Permutation Z.le (elements s) |}.

Definition slot_order : SetOrder :=
  {| set_iter := slot_iter;
     set_iter_perm := fun s => merge_sort_Permutation slot_le (elements s) |}.

(* ===================================================================== *)
(** * [main]                                                              *)
(* ===================================================================== *)

Record args : Type := {
  root_directory : string;
  output : option string;
  verbose : bool;
  csv_path : string
}.

Definition nl : string := String (ascii_of_nat 10) EmptyString.

Fixpoint join (sep : string) (l : list string) : string :=
  match l with
  | [] => ""
  | [x] => x
  | x :: rest => x +:+ sep +:+ join sep rest
  end.

(** [str(l)] for a list of integers. *)
Definition list_repr (l : list Z) : string :=
  "[" +:+ join ", " (pretty <$> l) +:+ "]".

Definition directory_line (directory : string) : string :=
  nl +:+ "Directory: " +:+ directory.

Definition missing_line (ids : list Z) : string :=
  "IDs present in TIFF but missing from CSV: " +:+ list_repr ids.

(** The loop [for directory, missing_ids in results.items()]. *)
Fixpoint print_results `{SetOrder} (results : dict (gset Z)) : M unit :=
  match results with
  | [] => mret tt
  | (directory, missing_ids) :: rest =>
      tell (Echo (directory_line directory));;
      tell (Echo (missing_line (sorted missing_ids)));;
      print_results rest
  end.

Definition echo_if (b : bool) (line : string) : M unit :=
  if b then tell (Echo line) else mret tt.

(** [if output:] an absent or empty path selects the console. *)
Definition json_target (a : args) : option string :=
  match output a with
  | Some "" => None
  | o => o
  end.

Definition main `{SetOrder} (w : world) (a : args) : M unit :=
  echo_if (verbose a)
    ("Starting scan from root directory: " +:+ root_directory a);;
  echo_if (verbose a) ("Using CSV file: " +:+ csv_path a);;
  try_except
    (results ← scan_for_label_directories w (root_directory a) (csv_path a);
     echo_if (verbose a)
       (nl +:+ "Found " +:+ pretty (length results) +:+ " matching directories");;
     match json_target a with
     | Some o =>
         (if output_writable w then tell (WriteJson o (json_dump results))
          else raise (OSError ("[Errno 13] Permission denied: '" +:+ o +:+ "'")));;
         tell (Echo (nl +:+ "Results saved to: " +:+ o))
     | None => print_results results
     end)
    (fun e => tell (EchoErr ("Error: " +:+ exn_str e));; raise Abort).

(** The command as [click] runs it: the declared path types are checked
    before [main] is entered. *)
Definition cli `{SetOrder} (w : world) (a : args) : M unit :=
  match root w, catalog w with
  | Some (Dir _), CsvFile _ _ => main w a
  | Some (Dir _), _ => raise (UsageError "Invalid value for '--csv-path'")
  | _, _ => raise (UsageError "Invalid value for 'ROOT_DIRECTORY'")
  end.

(* ===================================================================== *)
(** * Vocabulary of the statements                                        *)
(* ===================================================================== *)

(** [int(row["id"])] for one record under a header. *)
Definition row_id (fieldnames record : list string) : exn + Z :=
  match make_row fieldnames record !! Some "id" with
  | None => inl (KeyError "id")
  | Some c => int_of_cell c
  end.

(** The records that become rows: [DictReader] skips the empty ones. *)
Definition data_rows (records : list (list string)) : list (list string) :=
  filter (fun r : list string => r ≠ []) records.

(** The identifier values a file contains under its header. *)
Definition id_values (fieldnames : list string) (records : list (list string))
    : list Z :=
  omap (fun r => match row_id fieldnames r with inr z => Some z | inl _ => None end)
       (data_rows records).

(** The samples of the files that decode. *)
Definition decoded_samples (files : list (string * node)) : list sample :=
  flat_map (fun e : string * node =>
              match e.2 with File (inr samples) => samples | _ => [] end) files.

(** The text of the exception raised when a file does not decode. *)
Definition decode_failure (file_path : string) (n : node) : option string :=
  match n with
  | File (inr _) => None
  | File (inl msg) => Some msg
  | Dir _ => Some ("[Errno 21] Is a directory: '" +:+ file_path +:+ "'")
  end.

(** What reading one matching file leaves in the log: the decode, and a
    warning when it fails. *)
Definition file_events (dir : string) (e : string * node) : list event :=
  let file_path := child dir e.1 in
  Decode file_path ::
  match decode_failure file_path e.2 with
  | Some msg => [Print ("Error processing file " +:+ file_path +:+ ": " +:+ msg)]
  | None => []
  end.

Definition is_infinite (v : sample) : bool :=
  match v with SInf _ => true | _ => false end.

(** The integers [int] makes of the samples it accepts. *)
Definition coerced (tiff_values : list sample) : list Z :=
  omap (fun v => match int_of_sample v with inr z => Some z | inl _ => None end)
       tiff_values.

(** Events that touch the directory tree. *)
Definition directory_work (ev : event) : bool :=
  match ev with
  | Traverse _ | ListImages _ | Decode _ => true
  | _ => false
  end.

(** Events that deliver a report: the JSON document, or a directory line
    on the console. *)
Definition report_output (ev : event) : bool :=
  match ev with
  | WriteJson _ _ => true
  | Echo line => String.prefix (nl +:+ "Directory: ") line
  | _ => false
  end.

(** A catalog that is absent, or one of whose rows has an identifier that
    does not convert to an integer. *)
Definition catalog_unusable (f : catalog_file) : Prop :=
  f = Missing
  ∨ ∃ fieldnames rest ending r,
      f = CsvFile (fieldnames :: rest) ending
      ∧ r ∈ data_rows rest
      ∧ ∀ z, row_id fieldnames r ≠ inr z.

(** [entry_at p n parent name c]: in the tree [n] rooted at path [p], the
    directory at path [parent] (the root or any directory below it) has
    an entry called [name], which is the node [c]. *)
Inductive entry_at : string → node → string → string → node → Prop :=
| entry_here p es name c :
    (name, c) ∈ es → entry_at p (Dir es) p name c
| entry_below p es nm d parent name c :
    (nm, d) ∈ es → entry_at (child p nm) d parent name c →
    entry_at p (Dir es) parent name c.

Definition dict_keys {V} (d : dict V) : list string := d.*1.

Definition is_decode (ev : event) : bool :=
  match ev with Decode _ => true | _ => false end.

Definition is_print (ev : event) : bool :=
  match ev with Print _ => true | _ => false end.

Definition is_open_catalog (ev : event) : bool :=
  match ev with OpenCatalog _ => true | _ => false end.

Definition is_echo (ev : event) : bool :=
  match ev with Echo _ => true | _ => false end.

(** Whether [tifffile] raises on the entry. *)
Definition fails_to_decode (e : string * node) : bool :=
  match e.2 with File (inr _) => false | _ => true end.

Definition is_nan (v : sample) : bool :=
  match v with SNaN => true | _ => false end.

(** The samples of a label directory that reach the coercion loop. *)
Definition directory_samples (n : node) : list sample :=
  decoded_samples (tif_files n).

(** What the report holds for a label directory once it is processed:
    nothing when one of its samples is an infinity, otherwise the coerced
    samples that the catalog lacks. *)
Definition directory_entry (csv_ids : gset Z) (n : node) : option (gset Z) :=
  if existsb is_infinite (directory_samples n) then None
  else Some (reconcile (list_to_set (coerced (directory_samples n))) csv_ids).

(** The directories among the entries found, with the keys they get. *)
Definition processed_keys (cwd : string) (target_dirs : list (string * node))
    : list string :=
  (fun e : string * node => absolute cwd e.1)
    <$> filter (fun e : string * node => is_dir e.2 = true) target_dirs.

(** The integer in column [i] of a record. *)
Definition field_int (i : nat) (record : list string) : option Z :=
  record !! i ≫= parse_int.

(* ===================================================================== *)
(** * Checks on concrete inputs                                           *)
(* ===================================================================== *)

Definition label_dir (files : list (string * node)) : node :=
  Dir [("sub-01", Dir [(target_name, Dir files)])].

(** A catalog with a row that does not convert. *)
Definition world_bad_row : world := {|
  cwd := "/home/u";
  root := Some (label_dir [("a.tif", File (inr [SInt 1; SInt 9]))]);
  catalog := CsvFile [["id"; "name"]; ["1"; "root"]; ["x2"; "grey"]] EndOfFile;
  output_writable := true |}.

(** One file that does not decode next to one that holds an infinity. *)
Definition world_infinity : world := {|
  cwd := "/home/u";
  root := Some (label_dir [("bad.tif", File (inl "not a TIFF file"));
                           ("ok.tif", File (inr [SInt 1; SInt 4; SInf false]))]);
  catalog := CsvFile [["id"]; ["1"]] EndOfFile;
  output_writable := true |}.

(** One file that does not decode next to three that do. *)
Definition world_one_corrupt : world := {|
  cwd := "/home/u";
  root := Some (label_dir [("a.tif", File (inr [SInt 1; SInt 5]));
                           ("bad.tif", File (inl "not a TIFF file"));
                           ("b.tif", File (inr [SInt 2; SInt 7]));
                           ("c.tif", File (inr [SInt 5; SInt 3]))]);
  catalog := CsvFile [["id"]; ["1"]; ["2"]; ["3"]] EndOfFile;
  output_writable := true |}.

(** A floating-point image with the sample 2.5. *)
Definition world_fraction : world := {|
  cwd := "/home/u";
  root := Some (label_dir [("a.tif", File (inr [SFloat 5 2]))]);
  catalog := CsvFile [["id"]; ["1"]] EndOfFile;
  output_writable := true |}.

(** The missing identifiers 1 and 8. *)
Definition world_one_eight : world := {|
  cwd := "/home/u";
  root := Some (label_dir [("a.tif", File (inr [SInt 1; SInt 8; SInt 2]))]);
  catalog := CsvFile [["id"]; ["2"]] EndOfFile;
  output_writable := true |}.

(** A label directory without images, and a file that bears the reserved
    name. *)
Definition tree_nothing_missing : node :=
  Dir [("sub-01", Dir [(target_name, Dir [("notes.txt", File (inl "not a TIFF file"))])]);
       ("sub-02", Dir [(target_name, File (inr [SInt 9]))])].

Definition world_nothing_missing : world := {|
  cwd := "/home/u";
  root := Some tree_nothing_missing;
  catalog := CsvFile [["id"]; ["1"]] EndOfFile;
  output_writable := true |}.

(** Two label directories; the second holds an infinity. *)
Definition tree_two_directories : node :=
  Dir [("sub-01", Dir [(target_name, Dir [("a.tif", File (inr [SInt 1; SInt 5]))])]);
       ("sub-02", Dir [(target_name, Dir [("b.tif", File (inr [SInt 7; SInf true]))])])].

Definition world_two_directories : world := {|
  cwd := "/home/u";
  root := Some tree_two_directories;
  catalog := CsvFile [["id"]; ["1"]; ["2"]] EndOfFile;
  output_writable := true |}.

(** A tree in which only a file bears the reserved name. *)
Definition tree_no_label_directory : node :=
  Dir [("sub-01", Dir [("images", Dir [("a.tif", File (inr [SInt 4]))])]);
       (target_name, File (inr [SInt 9]))].

Definition world_no_label_directory : world := {|
  cwd := "/home/u";
  root := Some tree_no_label_directory;
  catalog := CsvFile [["id"]; ["1"]] EndOfFile;
  output_writable := true |}.

Definition console_args : args := {|
  root_directory := "data"; output := None; verbose := false;
  csv_path := "atlas_info.csv" |}.

Definition json_args : args := {|
  root_directory := "data"; output := Some "report.json"; verbose := false;
  csv_path := "atlas_info.csv" |}.

Example parse_int_ex1 : parse_int " 42 " = Some 42. Proof. reflexivity. Qed.
Example parse_int_ex2 : parse_int "-5" = Some (-5). Proof. reflexivity. Qed.
Example parse_int_ex3 : parse_int "1_000" = Some 1000. Proof. reflexivity. Qed.
Example parse_int_ex4 : parse_int "1__0" = None. Proof. reflexivity. Qed.
Example parse_int_ex5 : parse_int "7.0" = None. Proof. reflexivity. Qed.
Example parse_int_ex6 : parse_int "" = None. Proof. reflexivity. Qed.
Example parse_int_ex7 : parse_int "007" = Some 7. Proof. reflexivity. Qed.
Example parse_int_ex8 : parse_int "- 5" = None. Proof. reflexivity. Qed.
Example parse_int_ex9 : parse_int "+7" = Some 7. Proof. reflexivity. Qed.
Example parse_int_ex10 : parse_int "1_" = None. Proof. reflexivity. Qed.
Example parse_int_ex11 : parse_int "_1" = None. Proof. reflexivity. Qed.
Example parse_int_ex12 : parse_int "0x10" = None. Proof. reflexivity. Qed.
Example parse_int_ex13 : parse_int "-0" = Some 0. Proof. reflexivity. Qed.
Example make_row_ex1 :
  make_row ["id"; "name"; "id"] ["1"; "x"]
  = ({[Some "id" := CNone; Some "name" := CStr "x"]} : row).
Proof. vm_compute. reflexivity. Qed.
Example make_row_ex2 :
  make_row ["id"; "name"; "id"] ["3"; "y"; "4"; "5"]
  = ({[Some "id" := CStr "4"; Some "name" := CStr "y"; None := CList ["5"]]} : row).
Proof. vm_compute. reflexivity. Qed.
Example get_csv_ids_ex1 :
  outcome (get_csv_ids "c.csv" (CsvFile [["id"; "name"]; ["1"; "a"]; ["2"; "b"]; ["1"; "c"]] EndOfFile))
  = inr ({[1; 2]} : gset Z).
Proof. vm_compute. reflexivity. Qed.


(* ===================================================================== *)
(** * Laws of the effect monad                                            *)
(* ===================================================================== *)

Section monad_laws.
Context {A B : Type}.
Implicit Types (m : M A) (f : A → M B).

Lemma outcome_bind m f :
  outcome (m ≫= f) =
  match outcome m with inr a => outcome (f a) | inl e => inl e end.
Proof.
  destruct m as [l [e|a]]; [reflexivity|].
  unfold mbind, M_bind, bind, outcome. simpl. by destruct (f a).
Qed.

Lemma events_bind m f :
  events (m ≫= f) =
  events m ++ match outcome m with inr a => events (f a) | inl _ => [] end.
Proof.
  destruct m as [l [e|a]].
  - unfold mbind, M_bind, bind, events. simpl. by rewrite app_nil_r.
  - unfold mbind, M_bind, bind, events, outcome. simpl. by destruct (f a).
Qed.

Lemma outcome_try_except m (h : exn → M A) :
  outcome (try_except m h) =
  match outcome m with inr a => inr a | inl e => outcome (h e) end.
Proof.
  destruct m as [l [e|a]]; [|reflexivity].
  unfold try_except, outcome. simpl. by destruct (h e).
Qed.

Lemma events_try_except m (h : exn → M A) :
  events (try_except m h) =
  events m ++ match outcome m with inr _ => [] | inl e => events (h e) end.
Proof.
  destruct m as [l [e|a]].
  - unfold try_except, events, outcome. simpl. by destruct (h e).
  - unfold try_except, events. simpl. by rewrite app_nil_r.
Qed.
End monad_laws.

Lemma outcome_ret {A} (a : A) : outcome (mret a : M A) = inr a.
Proof. reflexivity. Qed.
Lemma events_ret {A} (a : A) : events (mret a : M A) = [].
Proof. reflexivity. Qed.
Lemma outcome_tell ev : outcome (tell ev) = inr tt.
Proof. reflexivity. Qed.
Lemma events_tell ev : events (tell ev) = [ev].
Proof. reflexivity. Qed.
Lemma outcome_raise {A} e : outcome (raise e : M A) = inl e.
Proof. reflexivity. Qed.
Lemma events_raise {A} e : events (raise e : M A) = [].
Proof. reflexivity. Qed.
Lemma outcome_lift {A} (r : exn + A) : outcome (lift r) = r.
Proof. reflexivity. Qed.
Lemma events_lift {A} (r : exn + A) : events (lift r) = [].
Proof. reflexivity. Qed.

Create Rewrite HintDb run.
#[export] Hint Rewrite @outcome_bind @events_bind @outcome_try_except
  @events_try_except @outcome_ret @events_ret outcome_tell events_tell
  @outcome_raise @events_raise @outcome_lift @events_lift : run.

#[global] Arguments ret : simpl never.
#[global] Arguments raise : simpl never.
#[global] Arguments tell : simpl never.
#[global] Arguments lift : simpl never.
#[global] Arguments bind : simpl never.
#[global] Arguments try_except : simpl never.
#[global] Arguments M_bind : simpl never.
#[global] Arguments M_ret : simpl never.
#[global] Arguments events : simpl never.
#[global] Arguments outcome : simpl never.

Ltac run := repeat (progress (autorewrite with run; simpl)).

(* ===================================================================== *)
(** * The catalog loader                                                  *)
(* ===================================================================== *)

Lemma load_rows_unfold fieldnames record rest ending acc :
  record ≠ [] →
  load_rows fieldnames (record :: rest) ending acc =
  match row_id fieldnames record with
  | inr z => load_rows fieldnames rest ending (acc ∪ {[z]})
  | inl (ValueError _) =>
      inl (ValueError ("Invalid ID value in CSV: " +:+
             match make_row fieldnames record !! Some "id" with
             | Some c => cell_str c | None => "" end))
  | inl e => inl e
  end.
Proof.
  intros Hne. destruct record as [|x record]; [done|].
  unfold row_id. cbn [load_rows].
  destruct (make_row fieldnames (x :: record) !! Some "id") as [c|]; [|done].
  destruct (int_of_cell c) as [[]|]; reflexivity.
Qed.

Lemma id_values_nil fieldnames : id_values fieldnames [] = [].
Proof. reflexivity. Qed.

Lemma id_values_skip fieldnames rest :
  id_values fieldnames ([] :: rest) = id_values fieldnames rest.
Proof. unfold id_values, data_rows. by rewrite filter_cons_False by (by intros ?). Qed.

Lemma id_values_cons fieldnames record rest :
  record ≠ [] →
  id_values fieldnames (record :: rest) =
  match row_id fieldnames record with
  | inr z => z :: id_values fieldnames rest
  | inl _ => id_values fieldnames rest
  end.
Proof.
  intros Hne. unfold id_values, data_rows. rewrite filter_cons_True by done.
  simpl. by destruct (row_id fieldnames record).
Qed.

(** A load succeeds exactly when the stream ends normally and every row's
    identifier converts; its result is then the set of the converted
    identifiers. *)
Lemma load_rows_inr fieldnames rest ending acc s :
  load_rows fieldnames rest ending acc = inr s ↔
  ending = EndOfFile
  ∧ (∀ r, r ∈ data_rows rest → ∃ z, row_id fieldnames r = inr z)
  ∧ s = acc ∪ list_to_set (id_values fieldnames rest).
Proof.
  revert acc. induction rest as [|record rest IH]; intros acc.
  - cbn [load_rows]. rewrite id_values_nil. split.
    + destruct ending; [|done]. intros [= <-]. split_and!; [done| |set_solver].
      intros r Hr. by apply elem_of_nil in Hr.
    + intros (-> & _ & ->). f_equal. set_solver.
  - destruct (decide (record = [])) as [->|Hne].
    + cbn [load_rows]. rewrite id_values_skip, IH.
      unfold data_rows. by rewrite filter_cons_False by (by intros ?).
    + rewrite load_rows_unfold, id_values_cons by done.
      unfold data_rows. rewrite filter_cons_True by done.
      fold (data_rows rest).
      destruct (row_id fieldnames record) as [e|z] eqn:Hid.
      * split.
        -- by destruct e.
        -- intros (_ & Hall & _). destruct (Hall record) as [z Hz]; [left|].
           congruence.
      * rewrite IH. split.
        -- intros (-> & Hall & ->). split_and!; [done| |set_solver].
           intros r [->|Hr]%elem_of_cons; eauto.
        -- intros (-> & Hall & ->). split_and!; [done| |set_solver].
           intros r Hr. apply Hall. by right.
Qed.

Lemma get_csv_ids_inr csv_path fieldnames rest ending s :
  outcome (get_csv_ids csv_path (CsvFile (fieldnames :: rest) ending)) = inr s ↔
  ending = EndOfFile
  ∧ (∀ r, r ∈ data_rows rest → ∃ z, row_id fieldnames r = inr z)
  ∧ s = list_to_set (id_values fieldnames rest).
Proof.
  unfold get_csv_ids. run. rewrite load_rows_inr.
  split; intros (-> & Hall & ->); split_and!; auto; set_solver.
Qed.

Lemma zip_dict_lookup_absent (k : option string)
    (fieldnames record : list string) (d : row) :
  (∀ x, k = Some x → x ∉ fieldnames) →
  zip_dict fieldnames record d !! k = d !! k.
Proof.
  revert record d. induction fieldnames as [|f fs IH]; intros record d Hk; [done|].
  destruct record as [|v vs]; [done|]. cbn [zip_dict].
  rewrite IH.
  - apply lookup_insert_ne. intros <-. eapply Hk; [done|left].
  - intros x Hx. apply Hk in Hx. set_solver.
Qed.

Lemma fill_restval_lookup_absent (k : option string) (keys : list string)
    (d : row) :
  (∀ x, k = Some x → x ∉ keys) →
  fill_restval keys d !! k = d !! k.
Proof.
  unfold fill_restval. revert d. induction keys as [|f fs IH]; intros d Hk; [done|].
  cbn [foldl]. rewrite IH.
  - apply lookup_insert_ne. intros <-. eapply Hk; [done|left].
  - intros x Hx. apply Hk in Hx. set_solver.
Qed.

Lemma make_row_lookup_absent (name : string) (fieldnames record : list string) :
  name ∉ fieldnames → make_row fieldnames record !! Some name = None.
Proof.
  intros Hk. unfold make_row.
  assert (zip_dict fieldnames record ∅ !! Some name = None) as Hz.
  { rewrite zip_dict_lookup_absent; [done|]. by intros x [= <-]. }
  repeat case_match.
  - by rewrite lookup_insert_ne.
  - rewrite fill_restval_lookup_absent; [done|].
    intros x [= <-] Hin. apply Hk. by eapply subseteq_drop.
  - done.
Qed.

Lemma row_id_without_column fieldnames record :
  "id" ∉ fieldnames → row_id fieldnames record = inl (KeyError "id").
Proof. intros Hk. unfold row_id. by rewrite make_row_lookup_absent. Qed.

Lemma load_rows_without_column fieldnames rest ending acc :
  "id" ∉ fieldnames → data_rows rest ≠ [] →
  load_rows fieldnames rest ending acc = inl (KeyError "id").
Proof.
  intros Hk. induction rest as [|record rest IH]; [done|].
  destruct (decide (record = [])) as [->|Hne].
  - unfold data_rows. rewrite filter_cons_False by (by intros ?). apply IH.
  - intros _. rewrite load_rows_unfold by done.
    by rewrite row_id_without_column.
Qed.

Lemma load_rows_no_data fieldnames rest acc :
  data_rows rest = [] → load_rows fieldnames rest EndOfFile acc = inr acc.
Proof.
  induction rest as [|record rest IH]; [done|].
  destruct (decide (record = [])) as [->|Hne].
  - unfold data_rows. rewrite filter_cons_False by (by intros ?). apply IH.
  - unfold data_rows. by rewrite filter_cons_True by done.
Qed.

(** C10.  When the header has no column called [id], the first data row
    makes the load raise [KeyError('id')] itself, not the [ValueError] the
    function documents; without any data row the load succeeds with the
    empty set. *)
Theorem missing_id_column_raises_KeyError csv_path fieldnames rest ending :
  "id" ∉ fieldnames →
  (data_rows rest ≠ [] →
   outcome (get_csv_ids csv_path (CsvFile (fieldnames :: rest) ending))
   = inl (KeyError "id"))
  ∧ (data_rows rest = [] → ending = EndOfFile →
     outcome (get_csv_ids csv_path (CsvFile (fieldnames :: rest) ending))
     = inr ∅).
Proof.
  intros Hk. unfold get_csv_ids. run. split.
  - intros Hd. by apply load_rows_without_column.
  - intros Hd ->. by apply load_rows_no_data.
Qed.

Lemma missing_id_column_raises_KeyError_witness :
  outcome (get_csv_ids "atlas_info.csv"
             (CsvFile [["name"; "acronym"]; ["root"; "r"]] EndOfFile))
  = inl (KeyError "id")
  ∧ outcome (get_csv_ids "atlas_info.csv"
               (CsvFile [["name"; "acronym"]; []] EndOfFile))
    = inr ∅.
Proof.
  split.
  - apply (missing_id_column_raises_KeyError "atlas_info.csv"
             ["name"; "acronym"] [["root"; "r"]] EndOfFile).
    + intros Hin. vm_compute in Hin. set_solver.
    + discriminate.
  - apply (missing_id_column_raises_KeyError "atlas_info.csv"
             ["name"; "acronym"] [[]] EndOfFile).
    + set_solver.
    + reflexivity.
    + reflexivity.
Defined.

Lemma elem_of_id_values fieldnames rest z :
  z ∈ id_values fieldnames rest ↔
  ∃ r, r ∈ data_rows rest ∧ row_id fieldnames r = inr z.
Proof.
  unfold id_values. rewrite list_elem_of_omap. split.
  - intros (r & Hr & Hz). exists r. split; [done|].
    destruct (row_id fieldnames r); congruence.
  - intros (r & Hr & Hz). exists r. by rewrite Hz.
Qed.

(** C9 (as amended).  Whatever a successful load puts into the set is the
    integer that [int] made of the [id] field of one of the data rows, and
    every such integer is in the set; the sign plays no part. *)
Theorem catalog_ids_are_row_integers csv_path (f : catalog_file) (s : gset Z) :
  outcome (get_csv_ids csv_path f) = inr s →
  ∀ z, z ∈ s ↔
       ∃ fieldnames rest ending r,
         f = CsvFile (fieldnames :: rest) ending
         ∧ r ∈ data_rows rest ∧ row_id fieldnames r = inr z.
Proof.
  intros Hload z. destruct f as [|m|[|fieldnames rest] ending].
  - done.
  - done.
  - revert Hload. unfold get_csv_ids. run. destruct ending; [|done].
    intros [= <-]. split; [set_solver|]. by intros (? & ? & ? & ? & ? & _).
  - apply get_csv_ids_inr in Hload as (-> & _ & ->).
    rewrite elem_of_list_to_set, elem_of_id_values. split.
    + intros (r & Hr & Hz). by exists fieldnames, rest, EndOfFile, r.
    + intros (? & ? & ? & r & [= <- <- <-] & Hr & Hz). by exists r.
Qed.

Lemma catalog_ids_are_row_integers_witness :
  -5 ∈ ({[7; -5]} : gset Z) ↔
  ∃ fieldnames rest ending r,
    CsvFile [["id"; "name"]; ["7"; "a"]; ["-5"; "b"]] EndOfFile
    = CsvFile (fieldnames :: rest) ending
    ∧ r ∈ data_rows rest ∧ row_id fieldnames r = inr (-5).
Proof.
  apply (catalog_ids_are_row_integers "atlas_info.csv"
           (CsvFile [["id"; "name"]; ["7"; "a"]; ["-5"; "b"]] EndOfFile)
           {[7; -5]}).
  vm_compute. reflexivity.
Defined.

(** C9 as stated fails: a catalog row carrying [-5] loads, and the catalog
    then holds a negative identifier. *)
Lemma negative_identifier_loads :
  ¬ (∀ csv_path f (s : gset Z),
       outcome (get_csv_ids csv_path f) = inr s → ∀ z, z ∈ s → 0 ≤ z).
Proof.
  intros Hall.
  specialize (Hall "atlas_info.csv" (CsvFile [["id"]; ["-5"]] EndOfFile)
                {[ -5 ]} eq_refl (-5)).
  assert (0 ≤ -5) by (apply Hall; set_solver). lia.
Qed.

(** C6.  Two catalog files whose rows all convert and which carry the same
    identifier values, in whatever order and however often, both load and
    give the same set. *)
Theorem catalog_order_and_multiplicity csv_path1 csv_path2
    (fieldnames1 fieldnames2 : list string) (rows1 rows2 : list (list string)) :
  (∀ r, r ∈ data_rows rows1 → ∃ z, row_id fieldnames1 r = inr z) →
  (∀ r, r ∈ data_rows rows2 → ∃ z, row_id fieldnames2 r = inr z) →
  (∀ z, z ∈ id_values fieldnames1 rows1 ↔ z ∈ id_values fieldnames2 rows2) →
  ∃ s : gset Z,
    outcome (get_csv_ids csv_path1 (CsvFile (fieldnames1 :: rows1) EndOfFile)) = inr s
    ∧ outcome (get_csv_ids csv_path2 (CsvFile (fieldnames2 :: rows2) EndOfFile)) = inr s.
Proof.
  intros Hok1 Hok2 Hsame.
  exists (list_to_set (id_values fieldnames1 rows1)). split.
  - by apply get_csv_ids_inr.
  - apply get_csv_ids_inr. split_and!; [done..|].
    apply set_eq. intros z. by rewrite !elem_of_list_to_set.
Qed.

(** The same, read on the records: reordering and repeating records
    changes nothing. *)
Lemma catalog_same_records csv_path fieldnames (rows1 rows2 : list (list string))
    (s : gset Z) :
  (∀ r, r ∈ rows1 ↔ r ∈ rows2) →
  outcome (get_csv_ids csv_path (CsvFile (fieldnames :: rows1) EndOfFile)) = inr s →
  outcome (get_csv_ids csv_path (CsvFile (fieldnames :: rows2) EndOfFile)) = inr s.
Proof.
  intros Hsame. rewrite !get_csv_ids_inr.
  assert (∀ r, r ∈ data_rows rows1 ↔ r ∈ data_rows rows2) as Hd.
  { intros r. unfold data_rows. rewrite !list_elem_of_filter. naive_solver. }
  intros (_ & Hall & ->). split_and!; [done| |].
  - intros r Hr. apply Hall. by apply Hd.
  - apply set_eq. intros z. rewrite !elem_of_list_to_set, !elem_of_id_values.
    naive_solver.
Qed.

Lemma catalog_permuted_records csv_path fieldnames (rows1 rows2 : list (list string))
    (s : gset Z) :
  rows1 ≡ₚ rows2 →
  outcome (get_csv_ids csv_path (CsvFile (fieldnames :: rows1) EndOfFile)) = inr s →
  outcome (get_csv_ids csv_path (CsvFile (fieldnames :: rows2) EndOfFile)) = inr s.
Proof. intros Hp. apply catalog_same_records. intros r. by rewrite Hp. Qed.

Lemma rows_convert_by_computation fieldnames (rows : list (list string)) :
  forallb (fun r => match row_id fieldnames r with inr _ => true | inl _ => false end)
          (data_rows rows) = true →
  ∀ r, r ∈ data_rows rows → ∃ z, row_id fieldnames r = inr z.
Proof.
  rewrite forallb_forall. intros Hall r Hr%list_elem_of_In.
  specialize (Hall r Hr). destruct (row_id fieldnames r) as [|z]; [done|by exists z].
Qed.

Lemma same_values_by_computation (l1 l2 : list Z) :
  list_to_set l1 =@{gset Z} list_to_set l2 → ∀ z, z ∈ l1 ↔ z ∈ l2.
Proof. intros Heq z. by rewrite <- !(elem_of_list_to_set (C:=gset Z)), Heq. Qed.

Lemma catalog_order_and_multiplicity_witness :
  ∃ s : gset Z,
    outcome (get_csv_ids "a.csv"
               (CsvFile [["id"; "name"]; ["7"; "x"]; ["3"; "y"]; ["7"; "z"]] EndOfFile))
    = inr s
    ∧ outcome (get_csv_ids "b.csv"
                 (CsvFile [["name"; "id"]; ["y"; "3"]; ["x"; "07"]] EndOfFile))
      = inr s.
Proof.
  apply (catalog_order_and_multiplicity "a.csv" "b.csv"
           ["id"; "name"] ["name"; "id"]
           [["7"; "x"]; ["3"; "y"]; ["7"; "z"]] [["y"; "3"]; ["x"; "07"]]).
  - apply rows_convert_by_computation. vm_compute. reflexivity.
  - apply rows_convert_by_computation. vm_compute. reflexivity.
  - apply same_values_by_computation. vm_compute. reflexivity.
Defined.

(* ===================================================================== *)
(** * A failed catalog load stops the run                                 *)
(* ===================================================================== *)

Lemma get_csv_ids_events csv_path f :
  Forall (fun ev => directory_work ev = false ∧ report_output ev = false)
         (events (get_csv_ids csv_path f)).
Proof.
  destruct f as [|m|records ending]; unfold get_csv_ids; run;
    repeat constructor.
Qed.

Lemma catalog_unusable_fails csv_path f :
  catalog_unusable f → ∃ e, outcome (get_csv_ids csv_path f) = inl e.
Proof.
  intros Hbad.
  destruct (outcome (get_csv_ids csv_path f)) as [e|s] eqn:Hload; [by exists e|].
  exfalso. destruct Hbad as [->|(fieldnames & rest & ending & r & -> & Hr & Hz)].
  - done.
  - apply get_csv_ids_inr in Hload as (_ & Hall & _).
    destruct (Hall r Hr) as [z Hrz]. by apply (Hz z).
Qed.

Lemma scan_after_failed_load w root_path csv_path e :
  outcome (get_csv_ids csv_path (catalog w)) = inl e →
  (∃ e', outcome (scan_for_label_directories w root_path csv_path) = inl e'
         ∧ (root w ≠ None → e' = e))
  ∧ Forall (fun ev => directory_work ev = false ∧ report_output ev = false)
           (events (scan_for_label_directories w root_path csv_path)).
Proof.
  intros Hload. unfold scan_for_label_directories.
  destruct (root w) as [tree|].
  - run. rewrite Hload. split; [by exists e|].
    rewrite ?app_nil_r. apply get_csv_ids_events.
  - run. split; [|constructor]. eexists. split; [done|]. by intros [].
Qed.

Lemma echo_if_events b line :
  String.prefix (nl +:+ "Directory: ") line = false →
  Forall (fun ev => directory_work ev = false ∧ report_output ev = false)
         (events (echo_if b line)).
Proof. intros Hl. destruct b; repeat constructor. exact Hl. Qed.

Lemma outcome_echo_if b line : outcome (echo_if b line) = inr tt.
Proof. by destruct b. Qed.

Lemma main_after_failed_scan `{SetOrder} w a e :
  outcome (scan_for_label_directories w (root_directory a) (csv_path a)) = inl e →
  Forall (fun ev => directory_work ev = false ∧ report_output ev = false)
         (events (scan_for_label_directories w (root_directory a) (csv_path a))) →
  outcome (main w a) = inl Abort
  ∧ Forall (fun ev => directory_work ev = false ∧ report_output ev = false)
           (events (main w a)).
Proof.
  intros Hscan Hev. unfold main. run. rewrite !outcome_echo_if. run.
  rewrite Hscan. run. split; [done|].
  rewrite !Forall_app.
  split_and!; try (by apply echo_if_events); try done; repeat constructor.
Qed.

(** C3.  A catalog that is absent, or that has a row whose identifier does
    not convert, makes the load raise (with [FileNotFoundError] when the
    file is absent): no set is returned, the scan raises without touching
    the directory tree, and the program ends with [Abort] (or is refused
    by the command line) without having delivered a report. *)
Theorem catalog_failure_is_fatal `{SetOrder} (w : world) (a : args) :
  catalog_unusable (catalog w) →
  (∃ e, outcome (get_csv_ids (csv_path a) (catalog w)) = inl e
        ∧ (catalog w = Missing →
           e = FileNotFoundError ("CSV file not found at " +:+ csv_path a)
           ∧ events (get_csv_ids (csv_path a) (catalog w)) = []))
  ∧ (∃ e, outcome (scan_for_label_directories w (root_directory a) (csv_path a))
          = inl e)
  ∧ Forall (fun ev => directory_work ev = false ∧ report_output ev = false)
           (events (scan_for_label_directories w (root_directory a) (csv_path a)))
  ∧ outcome (main w a) = inl Abort
  ∧ Forall (fun ev => directory_work ev = false ∧ report_output ev = false)
           (events (main w a))
  ∧ (∃ e, outcome (cli w a) = inl e)
  ∧ Forall (fun ev => directory_work ev = false ∧ report_output ev = false)
           (events (cli w a)).
Proof.
  intros Hbad.
  destruct (catalog_unusable_fails (csv_path a) _ Hbad) as [e Hload].
  destruct (scan_after_failed_load w (root_directory a) _ _ Hload)
    as [(e' & Hscan & _) Hev].
  destruct (main_after_failed_scan w a e' Hscan Hev) as [Hmain Hmev].
  split_and!; try done.
  - exists e. split; [done|]. intros Hm. rewrite Hm in Hload |- *.
    split; [|done]. by injection Hload as <-.
  - by exists e'.
  - unfold cli. repeat case_match; eauto.
  - unfold cli. repeat case_match; try done; constructor.
Qed.

Lemma catalog_failure_is_fatal_witness :
  outcome (@main slot_order world_bad_row console_args) = inl Abort
  ∧ Forall (fun ev => directory_work ev = false ∧ report_output ev = false)
           (events (@main slot_order world_bad_row console_args)).
Proof.
  assert (catalog_unusable (catalog world_bad_row)) as Hbad.
  { right. exists ["id"; "name"], [["1"; "root"]; ["x2"; "grey"]], EndOfFile,
      ["x2"; "grey"].
    split_and!; [reflexivity| |].
    - vm_compute. set_solver.
    - intros z. vm_compute. discriminate. }
  destruct (@catalog_failure_is_fatal slot_order world_bad_row console_args Hbad)
    as (_ & _ & _ & Hmain & Hev & _).
  exact (conj Hmain Hev).
Defined.

(** On success the catalog is opened before the tree is walked. *)
Lemma catalog_is_read_first w root_path csv_path tree (csv_ids : gset Z) :
  root w = Some tree →
  outcome (get_csv_ids csv_path (catalog w)) = inr csv_ids →
  events (scan_for_label_directories w root_path csv_path) =
  OpenCatalog csv_path :: Traverse root_path ::
  events (scan_loop (cwd w) csv_ids (rglob target_name root_path tree) []).
Proof.
  intros Hroot Hload. unfold scan_for_label_directories. rewrite Hroot.
  run. rewrite Hload. run.
  destruct (catalog w) as [|m|records ending]; [done| |done].
  revert Hload. unfold get_csv_ids. by run.
Qed.

(* ===================================================================== *)
(** * The image reader                                                    *)
(* ===================================================================== *)

Lemma decode_outcome file_path n :
  outcome (decode file_path n) =
  match n with
  | File (inr samples) => inr samples
  | File (inl msg) => inl (DecodeError msg)
  | Dir _ => inl (OSError ("[Errno 21] Is a directory: '" +:+ file_path +:+ "'"))
  end.
Proof. unfold decode. run. by destruct n as [[]|]. Qed.

Lemma decode_events file_path n : events (decode file_path n) = [Decode file_path].
Proof. unfold decode. run. by destruct n as [[]|]. Qed.

(** Whatever the files are, the loop returns, and it returns the samples
    of the files that decode, in order. *)
Lemma read_images_outcome dir files unique_values :
  outcome (read_images dir files unique_values) =
  inr (unique_values ++ decoded_samples files).
Proof.
  revert unique_values.
  induction files as [|[name n] files IH]; intros unique_values.
  - simpl. by rewrite app_nil_r.
  - cbn [read_images]. run. rewrite decode_outcome.
    destruct n as [[msg|samples]|es]; run; rewrite IH; cbn; by rewrite ?app_assoc.
Qed.

Lemma read_images_events dir files unique_values :
  events (read_images dir files unique_values) = flat_map (file_events dir) files.
Proof.
  revert unique_values.
  induction files as [|[name n] files IH]; intros unique_values; [done|].
  cbn [read_images flat_map]. run. rewrite decode_outcome, decode_events.
  unfold file_events at 1. cbn [fst snd].
  destruct n as [[msg|samples]|es]; run; by rewrite IH.
Qed.

Lemma get_unique_values_outcome directory_path n :
  outcome (get_unique_values_from_tiff_dir directory_path n) =
  inr (decoded_samples (tif_files n)).
Proof. unfold get_unique_values_from_tiff_dir. run. apply read_images_outcome. Qed.

Lemma get_unique_values_events directory_path n :
  events (get_unique_values_from_tiff_dir directory_path n) =
  ListImages directory_path :: flat_map (file_events directory_path) (tif_files n).
Proof.
  unfold get_unique_values_from_tiff_dir. run. by rewrite read_images_events.
Qed.

(* ===================================================================== *)
(** * Coercion of the samples                                             *)
(* ===================================================================== *)

Lemma coerce_values_spec tiff_values (acc : gset Z) :
  coerce_values tiff_values acc =
  if existsb is_infinite tiff_values
  then inl (OverflowError "cannot convert float infinity to integer")
  else inr (acc ∪ list_to_set (coerced tiff_values)).
Proof.
  revert acc. induction tiff_values as [|v vs IH]; intros acc.
  - simpl. f_equal. set_solver.
  - destruct v as [z|n d| |b]; cbn [coerce_values int_of_sample existsb is_infinite orb];
      rewrite ?IH; try done.
    + destruct (existsb is_infinite vs); [done|].
      f_equal. unfold coerced. cbn. set_solver.
    + destruct (existsb is_infinite vs); [done|].
      f_equal. unfold coerced. cbn. set_solver.
Qed.

(** X19.  The order in which the set of samples is iterated, and how
    often a sample occurs, does not change what the coercion loop returns
    or whether it raises. *)
Lemma coerce_values_same_elements (vs1 vs2 : list sample) (acc : gset Z) :
  (∀ v, v ∈ vs1 ↔ v ∈ vs2) → coerce_values vs1 acc = coerce_values vs2 acc.
Proof.
  intros Hsame. rewrite !coerce_values_spec.
  assert (existsb is_infinite vs1 = existsb is_infinite vs2) as ->.
  { apply eq_true_iff_eq. rewrite !existsb_exists.
    setoid_rewrite <- list_elem_of_In. naive_solver. }
  destruct (existsb is_infinite vs2); [done|]. f_equal. f_equal.
  apply set_eq. intros z. unfold coerced.
  rewrite !elem_of_list_to_set, !list_elem_of_omap. naive_solver.
Qed.

(* ===================================================================== *)
(** * Dictionaries                                                        *)
(* ===================================================================== *)

Section dict.
Context {V : Type}.
Implicit Types (d : dict V) (k : string) (v : V).

Lemma dict_get_set k v d : dict_get k (dict_set k v d) = Some v.
Proof.
  induction d as [|[k' v'] d IH]; simpl.
  - by rewrite decide_True.
  - destruct (decide (k = k')) as [->|Hne]; simpl.
    + by rewrite decide_True.
    + by rewrite decide_False.
Qed.

Lemma dict_keys_set k v d k' :
  k' ∈ dict_keys (dict_set k v d) ↔ k' = k ∨ k' ∈ dict_keys d.
Proof.
  unfold dict_keys. induction d as [|[k0 v0] d IH]; simpl.
  - rewrite list_elem_of_singleton. set_solver.
  - destruct (decide (k = k0)) as [->|Hne]; simpl.
    + set_solver.
    + rewrite !elem_of_cons, IH. naive_solver.
Qed.
End dict.

(* ===================================================================== *)
(** * One label directory, and the loop over all of them                  *)
(* ===================================================================== *)

Lemma process_directory_outcome cwd csv_ids directory n results :
  outcome (process_directory cwd csv_ids directory n results) =
  inr (if existsb is_infinite (decoded_samples (tif_files n)) then results
       else dict_set (absolute cwd directory)
              (reconcile (list_to_set (coerced (decoded_samples (tif_files n))))
                         csv_ids)
              results).
Proof.
  unfold process_directory. run.
  rewrite get_unique_values_outcome. run. rewrite coerce_values_spec.
  destruct (existsb is_infinite _); run; [done|].
  by rewrite (left_id_L ∅ (∪)).
Qed.

Lemma process_directory_events cwd csv_ids directory n results :
  events (process_directory cwd csv_ids directory n results) =
  ListImages directory :: flat_map (file_events directory) (tif_files n)
  ++ [Print (if existsb is_infinite (decoded_samples (tif_files n))
             then "Error processing directory " +:+ directory +:+ ": "
                  +:+ "cannot convert float infinity to integer"
             else "Successfully processed directory: "
                  +:+ absolute cwd directory)].
Proof.
  unfold process_directory. run.
  rewrite get_unique_values_outcome, get_unique_values_events. run.
  rewrite coerce_values_spec.
  destruct (existsb is_infinite _); run; by rewrite ?app_nil_r.
Qed.

(** The loop over the entries found always returns a report. *)
Lemma scan_loop_returns cwd csv_ids target_dirs results :
  ∃ report, outcome (scan_loop cwd csv_ids target_dirs results) = inr report.
Proof.
  revert results.
  induction target_dirs as [|[directory n] rest IH]; intros results.
  - by exists results.
  - cbn [scan_loop]. destruct (is_dir n); [|apply IH].
    run. rewrite process_directory_outcome. apply IH.
Qed.

Lemma scan_loop_keys cwd csv_ids target_dirs results report k :
  outcome (scan_loop cwd csv_ids target_dirs results) = inr report →
  k ∈ dict_keys report ↔
  k ∈ dict_keys results
  ∨ ∃ directory n,
      (directory, n) ∈ target_dirs ∧ is_dir n = true
      ∧ existsb is_infinite (decoded_samples (tif_files n)) = false
      ∧ k = absolute cwd directory.
Proof.
  revert results.
  induction target_dirs as [|[directory n] rest IH]; intros results.
  - cbn [scan_loop]. run. intros [= <-]. split; [by left|].
    intros [?|(? & ? & []%elem_of_nil & _)]; done.
  - cbn [scan_loop]. destruct (is_dir n) eqn:Hn.
    + run. rewrite process_directory_outcome. intros Hrest.
      rewrite (IH _ Hrest). clear IH Hrest.
      destruct (existsb is_infinite _) eqn:Hinf.
      * split.
        -- intros [?|(d' & n' & Hin & ?)]; [by left|].
           right. exists d', n'. split; [by right|done].
        -- intros [?|(d' & n' & [[= -> ->]|Hin]%elem_of_cons & Hd & Hi & ->)];
             [by left|congruence|].
           right. by exists d', n'.
      * rewrite dict_keys_set. split.
        -- intros [[->|?]|(d' & n' & Hin & ?)]; [|by left|].
           ++ right. exists directory, n. split; [by left|done].
           ++ right. exists d', n'. split; [by right|done].
        -- intros [?|(d' & n' & [[= -> ->]|Hin]%elem_of_cons & Hd & Hi & ->)];
             [by left; right|by left; left|].
           right. by exists d', n'.
    + intros Hrest. rewrite (IH _ Hrest). clear IH Hrest. split.
      * intros [?|(d' & n' & Hin & ?)]; [by left|].
        right. exists d', n'. split; [by right|done].
      * intros [?|(d' & n' & [[= -> ->]|Hin]%elem_of_cons & Hd & Hi & ->)];
          [by left|congruence|].
        right. by exists d', n'.
Qed.

Lemma ListImages_in_file_events q dir e : ListImages q ∉ file_events dir e.
Proof.
  unfold file_events. intros [|Hin]%elem_of_cons; [done|].
  destruct (decode_failure _ _); set_solver.
Qed.

Lemma ListImages_in_process_directory q cwd csv_ids directory n results :
  ListImages q ∈ events (process_directory cwd csv_ids directory n results) ↔
  q = directory.
Proof.
  rewrite process_directory_events, elem_of_cons, elem_of_app. split.
  - intros [[= ->]|[Hin|Hin]]; [done| |set_solver].
    apply list_elem_of_In, in_flat_map in Hin as (e & _ & He).
    by apply list_elem_of_In, ListImages_in_file_events in He.
  - intros ->. by left.
Qed.

Lemma scan_loop_events cwd csv_ids target_dirs results q :
  ListImages q ∈ events (scan_loop cwd csv_ids target_dirs results) ↔
  ∃ n, (q, n) ∈ target_dirs ∧ is_dir n = true.
Proof.
  revert results.
  induction target_dirs as [|[directory n] rest IH]; intros results.
  - cbn [scan_loop]. run. split; [by intros ?%elem_of_nil|].
    by intros (? & ?%elem_of_nil & _).
  - cbn [scan_loop]. destruct (is_dir n) eqn:Hn.
    + run. rewrite process_directory_outcome, elem_of_app, IH,
        ListImages_in_process_directory. split.
      * intros [->|(n' & Hin & ?)]; [exists n|exists n'];
          (split; [|done]); [by left|by right].
      * intros (n' & [[= -> ->]|Hin]%elem_of_cons & ?); [by left|].
        right. by exists n'.
    + rewrite IH. split.
      * intros (n' & Hin & ?). exists n'. split; [by right|done].
      * intros (n' & [[= -> ->]|Hin]%elem_of_cons & ?); [congruence|].
        by exists n'.
Qed.

(** What holds of a directory some of whose files do not decode: the
    reader returns exactly the samples of the files that decode, each
    failure leaves a warning, and, unless a decoded sample is an infinity,
    the directory gets its entry. *)
Lemma decode_failures_are_isolated cwd csv_ids directory n results :
  outcome (get_unique_values_from_tiff_dir directory n)
  = inr (decoded_samples (tif_files n))
  ∧ (∀ e msg, e ∈ tif_files n →
       decode_failure (child directory e.1) e.2 = Some msg →
       Print ("Error processing file " +:+ child directory e.1 +:+ ": " +:+ msg)
       ∈ events (get_unique_values_from_tiff_dir directory n))
  ∧ (existsb is_infinite (decoded_samples (tif_files n)) = false →
     ∃ report,
       outcome (process_directory cwd csv_ids directory n results) = inr report
       ∧ dict_get (absolute cwd directory) report
         = Some (reconcile (list_to_set (coerced (decoded_samples (tif_files n))))
                           csv_ids)).
Proof.
  split_and!.
  - apply get_unique_values_outcome.
  - intros e msg He Hfail. rewrite get_unique_values_events.
    right. apply list_elem_of_In, in_flat_map. exists e.
    split; [by apply list_elem_of_In|].
    apply list_elem_of_In. unfold file_events. rewrite Hfail. set_solver.
  - intros Hfin. eexists. rewrite process_directory_outcome, Hfin.
    split; [done|]. apply dict_get_set.
Qed.

(** The run over the tree returns a report whenever the root exists and
    the catalog loads. *)
Lemma scan_completes w root_path csv_path tree (csv_ids : gset Z) :
  root w = Some tree →
  outcome (get_csv_ids csv_path (catalog w)) = inr csv_ids →
  ∃ report, outcome (scan_for_label_directories w root_path csv_path) = inr report.
Proof.
  intros Hroot Hload. unfold scan_for_label_directories. rewrite Hroot.
  run. rewrite Hload. run. apply scan_loop_returns.
Qed.

(** C5, at the input where the code departs from it.  A label directory
    holds one file that does not decode and one that decodes to the
    samples 1, 4 and +inf.  The decode failure is caught and reported, but
    [int(inf)] raises [OverflowError], which the coercion loop does not
    catch: the directory's handler reports it, the directory gets no
    entry, and the report is empty. *)
Theorem infinite_sample_drops_directory :
  decoded_samples
    [("bad.tif", File (inl "not a TIFF file"));
     ("ok.tif", File (inr [SInt 1; SInt 4; SInf false]))]
  = [SInt 1; SInt 4; SInf false]
  ∧ outcome (scan_for_label_directories world_infinity "data" "atlas_info.csv")
    = inr []
  ∧ events (scan_for_label_directories world_infinity "data" "atlas_info.csv")
    = [OpenCatalog "atlas_info.csv"; Traverse "data";
       ListImages "data/sub-01/atlaslabel_def_origspace";
       Decode "data/sub-01/atlaslabel_def_origspace/bad.tif";
       Print "Error processing file data/sub-01/atlaslabel_def_origspace/bad.tif: not a TIFF file";
       Decode "data/sub-01/atlaslabel_def_origspace/ok.tif";
       Print "Error processing directory data/sub-01/atlaslabel_def_origspace: cannot convert float infinity to integer"].
Proof. split_and!; vm_compute; reflexivity. Qed.

(** The scenario of one corrupt file among three good ones. *)
Example one_corrupt_file_scenario :
  outcome (scan_for_label_directories world_one_corrupt "data" "atlas_info.csv")
  = inr [("/home/u/data/sub-01/atlaslabel_def_origspace", ({[5; 7]} : gset Z))].
Proof. vm_compute. reflexivity. Qed.

(** C2, at the input where the code departs from it.  The sample 2.5 has
    a fractional part, yet [int] truncates it: the directory's value set
    becomes {2}, and 2 is reported as missing from the catalog {1}. *)
Theorem fractional_sample_is_truncated :
  has_fraction (SFloat 5 2) = true
  ∧ coerce_values [SFloat 5 2] ∅ = inr {[2]}
  ∧ outcome (scan_for_label_directories world_fraction "data" "atlas_info.csv")
    = inr [("/home/u/data/sub-01/atlaslabel_def_origspace", ({[2]} : gset Z))].
Proof. split_and!; vm_compute; reflexivity. Qed.

(** In general a finite floating-point sample enters the set as its
    truncation toward zero, and a NaN is passed over. *)
Lemma coerce_values_float num den (acc : gset Z) :
  coerce_values [SFloat num den] acc = inr (acc ∪ {[Z.quot num (Z.pos den)]}).
Proof. reflexivity. Qed.

Lemma coerce_values_nan (acc : gset Z) : coerce_values [SNaN] acc = inr acc.
Proof. reflexivity. Qed.

Lemma coerce_values_whole z (acc : gset Z) :
  coerce_values [SInt z] acc = inr (acc ∪ {[z]}).
Proof. reflexivity. Qed.

(* ===================================================================== *)
(** * Reconciliation                                                      *)
(* ===================================================================== *)

(** C1.  The reconciliation step returns the set difference, whose members
    are the discovered values that are not in the catalog, and it is empty
    exactly when every discovered value is in the catalog. *)
Theorem reconcile_is_set_difference (D C : gset Z) :
  reconcile D C = D ∖ C
  ∧ (∀ x, x ∈ reconcile D C ↔ x ∈ D ∧ x ∉ C)
  ∧ (reconcile D C = ∅ ↔ D ⊆ C).
Proof.
  unfold reconcile. split_and!; [done|set_solver|].
  split.
  - intros Hempty x Hx. destruct (decide (x ∈ C)); [done|].
    assert (x ∈ D ∖ C) as Hin by set_solver. rewrite Hempty in Hin. set_solver.
  - intros Hsub. apply set_eq. set_solver.
Qed.

Example reconcile_scenario :
  reconcile ({[1; 2; 5; 7]} : gset Z) {[1; 2; 3]} = {[5; 7]}.
Proof. vm_compute. reflexivity. Qed.

(* ===================================================================== *)
(** * The directory scanner                                               *)
(* ===================================================================== *)

(** Induction on a tree, with the hypothesis available for every entry of
    a directory. *)
Lemma node_nested_ind (P : node → Prop) :
  (∀ d, P (File d)) →
  (∀ entries, Forall (fun e : string * node => P e.2) entries → P (Dir entries)) →
  ∀ n, P n.
Proof.
  intros Hf Hd. fix go 1. intros [d|entries]; [apply Hf|].
  apply Hd. induction entries as [|[nm c] es IHes]; constructor.
  - apply go.
  - apply IHes.
Qed.

Lemma rglob_Dir name p entries :
  rglob name p (Dir entries) =
  ((fun e : string * node => (child p e.1, e.2)) <$>
     filter (fun e : string * node => e.1 = name) entries)
  ++ flat_map (fun e : string * node => rglob name (child p e.1) e.2) entries.
Proof.
  cbn [rglob]. f_equal.
  induction entries as [|[nm c] es IH]; [done|].
  cbn [flat_map fst snd]. by rewrite IH.
Qed.

Lemma elem_of_rglob_Dir name p entries q c :
  (q, c) ∈ rglob name p (Dir entries) ↔
  (q = child p name ∧ (name, c) ∈ entries)
  ∨ ∃ nm d, (nm, d) ∈ entries ∧ (q, c) ∈ rglob name (child p nm) d.
Proof.
  rewrite rglob_Dir, elem_of_app, list_elem_of_fmap.
  rewrite list_elem_of_In, in_flat_map.
  setoid_rewrite list_elem_of_filter. setoid_rewrite <- list_elem_of_In.
  split.
  - intros [([nm c'] & [= -> ->] & Hnm & Hin)|([nm d] & Hin & Hq)].
    + simpl in Hnm. subst nm. by left.
    + right. by exists nm, d.
  - intros [[-> Hin]|(nm & d & Hin & Hq)].
    + left. by exists (name, c).
    + right. by exists (nm, d).
Qed.

(** The entries [rglob] yields are the entries with the given name, in
    the root directory and in every directory below it. *)
Lemma elem_of_rglob name p n q c :
  (q, c) ∈ rglob name p n ↔
  ∃ parent, q = child parent name ∧ entry_at p n parent name c.
Proof.
  split.
  - revert p. induction n as [d|entries IH] using node_nested_ind; intros p.
    + by intros ?%elem_of_nil.
    + rewrite elem_of_rglob_Dir.
      intros [[-> Hin]|(nm & d & Hin & Hq)].
      * exists p. split; [done|]. by constructor.
      * rewrite Forall_forall in IH.
        destruct (IH (nm, d) Hin _ Hq) as (parent & -> & Hat).
        exists parent. split; [done|]. by eapply entry_below.
  - intros (parent & -> & Hat).
    induction Hat as [p es name c Hin|p es nm d parent name c Hin Hat IH].
    + apply elem_of_rglob_Dir. by left.
    + apply elem_of_rglob_Dir. right. by exists nm, d.
Qed.

(** C7.  With the root present and the catalog loaded, the directories
    handed to the image reader are exactly the entries, in the root or in
    any directory below it, that bear the reserved name and are
    directories; and every key of the report is the absolute path of such
    a directory, so a file bearing the name never yields an entry. *)
Theorem label_directories_are_the_named_directories w root_path csv_path tree
    (csv_ids : gset Z) :
  root w = Some tree →
  outcome (get_csv_ids csv_path (catalog w)) = inr csv_ids →
  (∀ q, ListImages q ∈ events (scan_for_label_directories w root_path csv_path) ↔
        ∃ parent entries,
          q = child parent target_name
          ∧ entry_at root_path tree parent target_name (Dir entries))
  ∧ (∀ report k,
       outcome (scan_for_label_directories w root_path csv_path) = inr report →
       k ∈ dict_keys report →
       ∃ parent entries,
         k = absolute (cwd w) (child parent target_name)
         ∧ entry_at root_path tree parent target_name (Dir entries)).
Proof.
  intros Hroot Hload. split.
  - intros q. rewrite (catalog_is_read_first _ _ _ _ _ Hroot Hload).
    rewrite !elem_of_cons, scan_loop_events. split.
    + intros [?|[?|(n & Hin & Hn)]]; [done..|].
      destruct n as [|entries]; [done|].
      apply elem_of_rglob in Hin as (parent & -> & Hat). by exists parent, entries.
    + intros (parent & entries & -> & Hat). right; right.
      exists (Dir entries). split; [|done]. apply elem_of_rglob. by exists parent.
  - intros report k. unfold scan_for_label_directories. rewrite Hroot.
    run. rewrite Hload. run. intros Hscan Hk.
    apply (scan_loop_keys _ _ _ _ _ k) in Hscan. apply Hscan in Hk.
    destruct Hk as [[]%elem_of_nil|(directory & n & Hin & Hn & _ & ->)].
    destruct n as [|entries]; [done|].
    apply elem_of_rglob in Hin as (parent & -> & Hat). by exists parent, entries.
Qed.

Lemma label_directories_are_the_named_directories_witness :
  (∀ q, ListImages q ∈ events (scan_for_label_directories world_nothing_missing
                                 "data" "atlas_info.csv") ↔
        ∃ parent entries,
          q = child parent target_name
          ∧ entry_at "data" tree_nothing_missing parent target_name (Dir entries))
  ∧ (∀ report k,
       outcome (scan_for_label_directories world_nothing_missing
                  "data" "atlas_info.csv") = inr report →
       k ∈ dict_keys report →
       ∃ parent entries,
         k = absolute (cwd world_nothing_missing) (child parent target_name)
         ∧ entry_at "data" tree_nothing_missing parent target_name (Dir entries)).
Proof.
  apply (label_directories_are_the_named_directories world_nothing_missing
           "data" "atlas_info.csv" tree_nothing_missing {[1]}).
  - reflexivity.
  - vm_compute. reflexivity.
Defined.

(** A file that bears the reserved name is passed over. *)
Example file_with_reserved_name_is_skipped :
  events (scan_for_label_directories world_nothing_missing "data" "atlas_info.csv")
  = [OpenCatalog "atlas_info.csv"; Traverse "data";
     ListImages "data/sub-01/atlaslabel_def_origspace";
     Print "Successfully processed directory: /home/u/data/sub-01/atlaslabel_def_origspace"].
Proof. vm_compute. reflexivity. Qed.

(* ===================================================================== *)
(** * The two output modes                                                *)
(* ===================================================================== *)

Lemma sorted_is_sorted `{SetOrder} (s : gset Z) :
  Sorted Z.le (sorted s) ∧ sorted s ≡ₚ elements s.
Proof.
  unfold sorted. split.
  - apply (Sorted_merge_sort Z.le).
  - rewrite merge_sort_Permutation. apply set_iter_perm.
Qed.

(** [sorted] does not depend on the order in which the set is iterated. *)
Lemma sorted_canonical (O1 O2 : SetOrder) (s : gset Z) :
  @sorted O1 s = @sorted O2 s.
Proof.
  apply (Sorted_unique Z.le).
  - apply sorted_is_sorted.
  - apply sorted_is_sorted.
  - etrans; [apply sorted_is_sorted|]. symmetry. apply sorted_is_sorted.
Qed.

Lemma print_results_outcome `{SetOrder} (report : dict (gset Z)) :
  outcome (print_results report) = inr tt.
Proof. induction report as [|[d s] report IH]; [done|]. cbn [print_results]. by run. Qed.

Lemma print_results_events `{SetOrder} (report : dict (gset Z)) :
  events (print_results report) =
  flat_map (fun e : string * gset Z =>
              [Echo (directory_line e.1); Echo (missing_line (sorted e.2))])
           report.
Proof.
  induction report as [|[d s] report IH]; [done|].
  cbn [print_results flat_map]. run. by rewrite IH.
Qed.

Lemma file_events_no_output dir e :
  Forall (fun ev => report_output ev = false) (file_events dir e).
Proof. unfold file_events. destruct (decode_failure _ _); repeat constructor. Qed.

Lemma scan_loop_no_output cwd csv_ids target_dirs results :
  Forall (fun ev => report_output ev = false)
         (events (scan_loop cwd csv_ids target_dirs results)).
Proof.
  revert results.
  induction target_dirs as [|[directory n] rest IH]; intros results.
  - cbn [scan_loop]. run. constructor.
  - cbn [scan_loop]. destruct (is_dir n); [|apply IH].
    run. rewrite process_directory_outcome, process_directory_events.
    rewrite Forall_app. split; [|apply IH].
    constructor; [done|]. rewrite Forall_app. split; [|by repeat constructor].
    apply Forall_flat_map, Forall_forall. intros e _. apply file_events_no_output.
Qed.

Lemma scan_no_output w root_path csv_path :
  Forall (fun ev => report_output ev = false)
         (events (scan_for_label_directories w root_path csv_path)).
Proof.
  unfold scan_for_label_directories. destruct (root w) as [tree|]; run;
    [|constructor].
  rewrite Forall_app. split.
  - eapply Forall_impl; [apply get_csv_ids_events|]. by intros ev [_ ?].
  - destruct (outcome (get_csv_ids _ _)); run; [constructor|].
    constructor; [done|]. apply scan_loop_no_output.
Qed.

(** C8 as stated fails: with [--output] absent the report goes to the
    console, and the directory of [world_nothing_missing], whose set of
    missing identifiers is empty, is printed all the same. *)
Lemma console_prints_directory_with_nothing_missing :
  outcome (scan_for_label_directories world_nothing_missing
             (root_directory console_args) (csv_path console_args))
  = inr [("/home/u/data/sub-01/atlaslabel_def_origspace", (∅ : gset Z))]
  ∧ events (@main slot_order world_nothing_missing console_args)
    = [OpenCatalog "atlas_info.csv"; Traverse "data";
       ListImages "data/sub-01/atlaslabel_def_origspace";
       Print "Successfully processed directory: /home/u/data/sub-01/atlaslabel_def_origspace";
       Echo (directory_line "/home/u/data/sub-01/atlaslabel_def_origspace");
       Echo "IDs present in TIFF but missing from CSV: []"].
Proof. split; vm_compute; reflexivity. Qed.

(** C8 (as amended).  In console mode the run succeeds and, after the
    progress lines, prints every directory of the report, whether or not
    anything is missing in it, each followed by the line of its missing
    identifiers; that list is ascending and holds each missing identifier
    once. *)
Theorem console_prints_every_directory `{SetOrder} (w : world) (a : args)
    (report : dict (gset Z)) :
  json_target a = None →
  outcome (scan_for_label_directories w (root_directory a) (csv_path a))
  = inr report →
  outcome (main w a) = inr tt
  ∧ (∃ before,
       events (main w a) =
       before ++ flat_map (fun e : string * gset Z =>
                             [Echo (directory_line e.1);
                              Echo (missing_line (sorted e.2))]) report
       ∧ Forall (fun ev => report_output ev = false) before)
  ∧ (∀ e, e ∈ report → Sorted Z.le (sorted e.2) ∧ sorted e.2 ≡ₚ elements e.2).
Proof.
  intros Hconsole Hscan. unfold main. run. rewrite !outcome_echo_if. run.
  rewrite Hscan. run. rewrite outcome_echo_if, Hconsole. run.
  rewrite print_results_outcome, print_results_events.
  split_and!; [done| |intros; apply sorted_is_sorted].
  exists (events (echo_if (verbose a)
                    ("Starting scan from root directory: " +:+ root_directory a))
          ++ events (echo_if (verbose a) ("Using CSV file: " +:+ csv_path a))
          ++ events (scan_for_label_directories w (root_directory a) (csv_path a))
          ++ events (echo_if (verbose a)
                       (nl +:+ "Found " +:+ pretty (length report)
                        +:+ " matching directories"))).
  split.
  - rewrite app_nil_r. by rewrite <- !app_assoc.
  - rewrite !Forall_app. split_and!.
    + eapply Forall_impl; [by apply echo_if_events|]. by intros ev [_ ?].
    + eapply Forall_impl; [by apply echo_if_events|]. by intros ev [_ ?].
    + apply scan_no_output.
    + eapply Forall_impl; [by apply echo_if_events|]. by intros ev [_ ?].
Qed.

Lemma console_prints_every_directory_witness :
  outcome (@main slot_order world_nothing_missing console_args) = inr tt
  ∧ (∃ before,
       events (@main slot_order world_nothing_missing console_args) =
       before ++ flat_map (fun e : string * gset Z =>
                             [Echo (directory_line e.1);
                              Echo (missing_line (@sorted slot_order e.2))])
                   [("/home/u/data/sub-01/atlaslabel_def_origspace", ∅)]
       ∧ Forall (fun ev => report_output ev = false) before)
  ∧ (∀ e, e ∈ [("/home/u/data/sub-01/atlaslabel_def_origspace", (∅ : gset Z))] →
          Sorted Z.le (@sorted slot_order e.2)
          ∧ @sorted slot_order e.2 ≡ₚ elements e.2).
Proof.
  apply (@console_prints_every_directory slot_order world_nothing_missing
           console_args).
  - reflexivity.
  - vm_compute. reflexivity.
Defined.

(** Whatever the iteration order, the array written for a directory holds
    each of its missing identifiers once. *)
Lemma json_arrays_hold_the_missing_ids `{SetOrder} (report : dict (gset Z)) :
  json_dump report =
  JObject ((fun e : string * gset Z => (e.1, JArray (JInt <$> set_iter e.2)))
             <$> report)
  ∧ ∀ e, e ∈ report → set_iter e.2 ≡ₚ elements e.2.
Proof. split; [done|]. intros e _. apply set_iter_perm. Qed.

Lemma json_mode_writes_the_document `{SetOrder} (w : world) (a : args)
    (report : dict (gset Z)) o :
  json_target a = Some o → output_writable w = true →
  outcome (scan_for_label_directories w (root_directory a) (csv_path a))
  = inr report →
  outcome (main w a) = inr tt
  ∧ WriteJson o (json_dump report) ∈ events (main w a).
Proof.
  intros Hjson Hw Hscan. unfold main. run. rewrite !outcome_echo_if. run.
  rewrite Hscan. run. rewrite outcome_echo_if, Hjson, Hw. run.
  split; [done|]. rewrite !elem_of_app, elem_of_cons. tauto.
Qed.

(** C4, at the input where the code departs from it.  The images hold 1, 2
    and 8 and the catalog holds 2, so 1 and 8 are missing.  [SetEncoder]
    turns the set into a list in the set's iteration order; with the order
    of an eight-slot table, where 8 sits in slot 0 and 1 in slot 1, the
    array written is [8, 1], which is not ascending.  The console path
    prints the same set as [1, 8]. *)
Theorem json_array_follows_iteration_order :
  outcome (scan_for_label_directories world_one_eight
             (root_directory json_args) (csv_path json_args))
  = inr [("/home/u/data/sub-01/atlaslabel_def_origspace", ({[1; 8]} : gset Z))]
  ∧ events (@main slot_order world_one_eight json_args)
    = [OpenCatalog "atlas_info.csv"; Traverse "data";
       ListImages "data/sub-01/atlaslabel_def_origspace";
       Decode "data/sub-01/atlaslabel_def_origspace/a.tif";
       Print "Successfully processed directory: /home/u/data/sub-01/atlaslabel_def_origspace";
       WriteJson "report.json"
         (JObject [("/home/u/data/sub-01/atlaslabel_def_origspace",
                    JArray [JInt 8; JInt 1])]);
       Echo (nl +:+ "Results saved to: report.json")]
  ∧ ¬ Sorted Z.le [8; 1]
  ∧ @sorted slot_order {[1; 8]} = [1; 8].
Proof.
  split_and!; try (vm_compute; reflexivity).
  intros Hs. inversion Hs as [|? ? _ Hhd]. inversion Hhd as [|? ? Hle]. lia.
Qed.

(** Under an iteration order that is ascending the same report is written
    with ascending arrays: the order of the arrays is the runtime's, not
    the program's. *)
Example json_array_under_ascending_order :
  @json_dump ascending_order [("/d", {[1; 8]})]
  = JObject [("/d", JArray [JInt 1; JInt 8])].
Proof. vm_compute. reflexivity. Qed.

(* ===================================================================== *)
(** * Further properties of the image reader and the coercion loop        *)
(* ===================================================================== *)

Lemma filter_decode_file_events dir e :
  filter (fun ev => is_decode ev = true) (file_events dir e)
  = [Decode (child dir e.1)].
Proof.
  unfold file_events. rewrite filter_cons_True by done. f_equal.
  destruct (decode_failure _ _); [|done].
  by rewrite filter_cons_False by done.
Qed.

Lemma filter_print_file_events dir e :
  filter (fun ev => is_print ev = true) (file_events dir e)
  = if fails_to_decode e then
      [Print ("Error processing file " +:+ child dir e.1 +:+ ": " +:+
              default "" (decode_failure (child dir e.1) e.2))]
    else [].
Proof.
  unfold file_events, fails_to_decode. rewrite filter_cons_False by done.
  destruct e as [name [[msg|samples]|es]]; cbn [snd decode_failure default];
    by rewrite ?filter_cons_True by done.
Qed.

(** X1.  The image reader never raises.  It opens every matching file
    once, in the order of the listing, whether or not earlier files
    failed; it returns the samples of the files that decode; and it prints
    one warning for each file that does not. *)
Theorem reader_opens_every_image_once directory_path n :
  outcome (get_unique_values_from_tiff_dir directory_path n)
  = inr (decoded_samples (tif_files n))
  ∧ filter (fun ev => is_decode ev = true)
           (events (get_unique_values_from_tiff_dir directory_path n))
    = (fun e : string * node => Decode (child directory_path e.1)) <$> tif_files n
  ∧ length (filter (fun ev => is_print ev = true)
                   (events (get_unique_values_from_tiff_dir directory_path n)))
    = length (filter (fun e => fails_to_decode e = true) (tif_files n)).
Proof.
  split; [apply get_unique_values_outcome|].
  rewrite get_unique_values_events. rewrite !filter_cons_False by done.
  generalize (tif_files n). intros files.
  induction files as [|e files [IHd IHp]]; [done|].
  cbn [flat_map fmap list_fmap]. rewrite !filter_app.
  rewrite filter_decode_file_events, filter_print_file_events, IHd.
  split; [done|]. rewrite length_app, IHp.
  destruct (fails_to_decode e) eqn:He.
  - by rewrite filter_cons_True by done.
  - rewrite filter_cons_False; [done|]. by rewrite He.
Qed.

(** X2.  A label directory none of whose matching files decodes (in
    particular one without any image) is not an error: it gets an entry
    with the empty set, and is reported as processed. *)
Theorem directory_without_decodable_image cwd csv_ids directory n results :
  decoded_samples (tif_files n) = [] →
  outcome (process_directory cwd csv_ids directory n results)
  = inr (dict_set (absolute cwd directory) ∅ results)
  ∧ last (events (process_directory cwd csv_ids directory n results))
    = Some (Print ("Successfully processed directory: "
                   +:+ absolute cwd directory)).
Proof.
  intros Hnone.
  rewrite process_directory_outcome, process_directory_events, Hnone.
  cbn [existsb coerced omap list_omap list_to_set foldr].
  split.
  - do 2 f_equal. unfold reconcile. set_solver.
  - by rewrite app_comm_cons, last_snoc.
Qed.

Lemma directory_without_decodable_image_witness :
  outcome (process_directory "/home/u" {[1]} "data/sub-01/atlaslabel_def_origspace"
             (Dir [("notes.txt", File (inr [SInt 9]));
                   ("bad.tif", File (inl "not a TIFF file"))]) [])
  = inr (dict_set (absolute "/home/u" "data/sub-01/atlaslabel_def_origspace") ∅ [])
  ∧ last (events (process_directory "/home/u" {[1]}
                    "data/sub-01/atlaslabel_def_origspace"
                    (Dir [("notes.txt", File (inr [SInt 9]));
                          ("bad.tif", File (inl "not a TIFF file"))]) []))
    = Some (Print ("Successfully processed directory: "
                   +:+ absolute "/home/u" "data/sub-01/atlaslabel_def_origspace")).
Proof.
  apply (directory_without_decodable_image "/home/u" {[1]}
           "data/sub-01/atlaslabel_def_origspace"
           (Dir [("notes.txt", File (inr [SInt 9]));
                 ("bad.tif", File (inl "not a TIFF file"))]) []).
  vm_compute. reflexivity.
Defined.

(** X3.  A NaN sample is passed over in silence: taking the NaNs out of
    the samples changes neither the set the coercion loop returns nor
    whether it raises. *)
Theorem nan_samples_are_skipped (tiff_values : list sample) (acc : gset Z) :
  coerce_values tiff_values acc
  = coerce_values (filter (fun v => is_nan v = false) tiff_values) acc.
Proof.
  revert acc. induction tiff_values as [|v vs IH]; intros acc; [done|].
  destruct v as [z|n d| |b].
  - rewrite filter_cons_True by done. cbn [coerce_values int_of_sample]. apply IH.
  - rewrite filter_cons_True by done. cbn [coerce_values int_of_sample]. apply IH.
  - rewrite filter_cons_False by done. cbn [coerce_values int_of_sample]. apply IH.
  - rewrite filter_cons_True by done. reflexivity.
Qed.

(** X4.  A finite floating-point sample enters the set as its truncation
    toward zero: the integer lies less than one away from the sample, never
    beyond it, and equals it exactly when the sample is whole. *)
Theorem float_sample_enters_truncated num den (acc : gset Z) :
  ∃ z, coerce_values [SFloat num den] acc = inr (acc ∪ {[z]})
       ∧ Z.abs (num - z * Z.pos den) < Z.pos den
       ∧ Z.abs (z * Z.pos den) ≤ Z.abs num
       ∧ (has_fraction (SFloat num den) = false ↔ z * Z.pos den = num).
Proof.
  exists (Z.quot num (Z.pos den)). split; [done|].
  pose proof (Z.quot_rem' num (Z.pos den)) as Hqr.
  assert (Z.abs (Z.rem num (Z.pos den)) < Z.pos den) as Hr.
  { pose proof (Z.rem_bound_abs num (Z.pos den)). lia. }
  assert (0 ≤ Z.rem num (Z.pos den) * num) as Hs.
  { apply Z.rem_sign_mul. lia. }
  split_and!.
  - replace (num - Z.quot num (Z.pos den) * Z.pos den)
      with (Z.rem num (Z.pos den)) by lia. done.
  - destruct (Z.le_gt_cases 0 num) as [Hpos|Hneg].
    + pose proof (Z.mul_quot_le num (Z.pos den) Hpos). lia.
    + pose proof (Z.mul_quot_ge num (Z.pos den)). lia.
  - unfold has_fraction. rewrite negb_false_iff, Z.eqb_eq. lia.
Qed.

(* ===================================================================== *)
(** * Further properties of the scan                                      *)
(* ===================================================================== *)

Section dict_more.
Context {V : Type}.
Implicit Types (d : dict V) (k : string) (v : V).

Lemma dict_get_set_ne k k' v d : k ≠ k' → dict_get k (dict_set k' v d) = dict_get k d.
Proof.
  intros Hne. induction d as [|[k0 v0] d IH]; simpl.
  - by rewrite decide_False.
  - destruct (decide (k' = k0)) as [->|Hne0]; simpl.
    + by rewrite !decide_False.
    + destruct (decide (k = k0)); [done|apply IH].
Qed.

Lemma dict_get_None k d : dict_get k d = None ↔ k ∉ dict_keys d.
Proof.
  unfold dict_keys. induction d as [|[k0 v0] d IH]; simpl.
  - split; [intros _ []%elem_of_nil|done].
  - destruct (decide (k = k0)) as [->|Hne].
    + split; [done|]. intros []. by left.
    + rewrite IH, not_elem_of_cons. naive_solver.
Qed.


End dict_more.




Lemma processed_keys_cons cwd directory n rest :
  processed_keys cwd ((directory, n) :: rest) =
  if is_dir n then absolute cwd directory :: processed_keys cwd rest
  else processed_keys cwd rest.
Proof.
  unfold processed_keys. destruct (is_dir n) eqn:Hn.
  - by rewrite filter_cons_True by done.
  - rewrite filter_cons_False; [done|]. cbn [snd]. by rewrite Hn.
Qed.

Lemma scan_loop_get cwd csv_ids target_dirs results report k n :
  outcome (scan_loop cwd csv_ids target_dirs results) = inr report →
  (∀ d' n', (d', n') ∈ target_dirs → is_dir n' = true →
            absolute cwd d' = k → n' = n) →
  dict_get k report =
  if decide (k ∈ processed_keys cwd target_dirs) then
    match directory_entry csv_ids n with
    | Some v => Some v
    | None => dict_get k results
    end
  else dict_get k results.
Proof.
  revert results.
  induction target_dirs as [|[directory m] rest IH]; intros results Hscan Hsame.
  - revert Hscan. cbn [scan_loop]. run. by intros [= <-].
  - assert (∀ d' n', (d', n') ∈ rest → is_dir n' = true →
                     absolute cwd d' = k → n' = n) as Hrest.
    { intros d' n' Hin. apply Hsame. by right. }
    revert Hscan. cbn [scan_loop]. rewrite processed_keys_cons.
    destruct (is_dir m) eqn:Hm; [|intros Hscan; by apply IH].
    run. rewrite process_directory_outcome. intros Hscan.
    rewrite (IH _ Hscan Hrest). clear IH Hscan.
    destruct (decide (absolute cwd directory = k)) as [Hk|Hk].
    + assert (m = n) as -> by (apply (Hsame directory); [by left|done..]).
      rewrite (decide_True (P := k ∈ _ :: _)) by (rewrite Hk; by left).
      unfold directory_entry, directory_samples.
      destruct (existsb is_infinite _).
      * by destruct (decide _).
      * rewrite <- Hk, dict_get_set. by destruct (decide _).
    + assert (dict_get k (if existsb is_infinite (decoded_samples (tif_files m))
                          then results
                          else dict_set (absolute cwd directory)
                                 (reconcile (list_to_set (coerced
                                    (decoded_samples (tif_files m)))) csv_ids)
                                 results)
              = dict_get k results) as ->.
      { destruct (existsb is_infinite _); [done|]. by apply dict_get_set_ne. }
      destruct (decide (k ∈ processed_keys cwd rest)) as [Hin|Hnin].
      * rewrite decide_True; [done|]. by right.
      * rewrite decide_False; [done|]. rewrite not_elem_of_cons. done.
Qed.

Lemma NoDup_fmap_elem {A B} (f : A → B) (l : list A) x y :
  NoDup (f <$> l) → x ∈ l → y ∈ l → f x = f y → x = y.
Proof.
  induction l as [|a l IH]; [by intros _ ?%elem_of_nil|].
  rewrite fmap_cons, NoDup_cons.
  intros [Hna Hnd] [->|Hx]%elem_of_cons [->|Hy]%elem_of_cons Hf; [done| | |by apply IH].
  - exfalso. apply Hna. rewrite Hf. by apply list_elem_of_fmap_2.
  - exfalso. apply Hna. rewrite <- Hf. by apply list_elem_of_fmap_2.
Qed.

(** X6.  When the label directories found have distinct absolute paths,
    the report holds for each of them what its own images give and
    nothing else: no entry if one of its samples is an infinity, otherwise
    the integers of its decodable images that the catalog lacks.  The
    other directories, whatever they hold, have no influence on it. *)
Theorem entry_depends_only_on_own_images w root_path csv_path tree
    (csv_ids : gset Z) report directory n :
  root w = Some tree →
  outcome (get_csv_ids csv_path (catalog w)) = inr csv_ids →
  outcome (scan_for_label_directories w root_path csv_path) = inr report →
  NoDup (processed_keys (cwd w) (rglob target_name root_path tree)) →
  (directory, n) ∈ rglob target_name root_path tree →
  is_dir n = true →
  dict_get (absolute (cwd w) directory) report = directory_entry csv_ids n.
Proof.
  intros Hroot Hload Hscan Hnd Hin Hn.
  revert Hscan. unfold scan_for_label_directories. rewrite Hroot.
  run. rewrite Hload. run. intros Hscan.
  assert ((directory, n) ∈ filter (fun e : string * node => is_dir e.2 = true)
                                  (rglob target_name root_path tree)) as Hf.
  { by apply list_elem_of_filter. }
  rewrite (scan_loop_get _ _ _ _ _ _ n Hscan).
  - rewrite decide_True.
    + by destruct (directory_entry csv_ids n).
    + unfold processed_keys.
      by apply (list_elem_of_fmap_2 (fun e : string * node => absolute (cwd w) e.1)
                  _ (directory, n)).
  - intros d' n' Hin' Hn' Hk.
    assert ((d', n') = (directory, n)) as [= _ ->]; [|done].
    apply (NoDup_fmap_elem (fun e : string * node => absolute (cwd w) e.1)
             (filter (fun e : string * node => is_dir e.2 = true)
                     (rglob target_name root_path tree))); try done.
    by apply list_elem_of_filter.
Qed.

Lemma entry_depends_only_on_own_images_witness :
  dict_get (absolute (cwd world_two_directories)
                     "data/sub-01/atlaslabel_def_origspace")
           [("/home/u/data/sub-01/atlaslabel_def_origspace", ({[5]} : gset Z))]
  = directory_entry {[1; 2]} (Dir [("a.tif", File (inr [SInt 1; SInt 5]))]).
Proof.
  apply (entry_depends_only_on_own_images world_two_directories
           "data" "atlas_info.csv" tree_two_directories).
  - reflexivity.
  - vm_compute. reflexivity.
  - vm_compute. reflexivity.
  - apply (bool_decide_unpack (NoDup _)). vm_compute. exact I.
  - apply list_elem_of_In. vm_compute. left. reflexivity.
  - reflexivity.
Defined.

Lemma scan_loop_without_directories cwd csv_ids target_dirs results :
  Forall (fun e : string * node => is_dir e.2 = false) target_dirs →
  scan_loop cwd csv_ids target_dirs results = mret results.
Proof.
  induction 1 as [|[directory n] rest Hn _ IH]; [done|].
  cbn [scan_loop]. cbn [snd] in Hn. by rewrite Hn.
Qed.

(** X7.  A tree without any directory bearing the reserved name (for
    instance one where only a file bears it, or a root that is itself a
    file) is not an error: the catalog is read, the tree is walked, no
    directory is listed and the report is empty. *)
Theorem no_label_directory_gives_empty_report w root_path csv_path tree
    (csv_ids : gset Z) :
  root w = Some tree →
  outcome (get_csv_ids csv_path (catalog w)) = inr csv_ids →
  (∀ parent entries,
     ¬ entry_at root_path tree parent target_name (Dir entries)) →
  outcome (scan_for_label_directories w root_path csv_path) = inr []
  ∧ events (scan_for_label_directories w root_path csv_path)
    = [OpenCatalog csv_path; Traverse root_path].
Proof.
  intros Hroot Hload Hnone.
  rewrite (catalog_is_read_first _ _ _ _ _ Hroot Hload).
  unfold scan_for_label_directories. rewrite Hroot. run. rewrite Hload. run.
  rewrite scan_loop_without_directories; [done|].
  apply Forall_forall. intros [q c] Hin.
  apply elem_of_rglob in Hin as (parent & -> & Hat).
  destruct c as [|entries]; [done|]. by destruct (Hnone parent entries).
Qed.

Lemma entry_at_file_root p d parent name c : ¬ entry_at p (File d) parent name c.
Proof. inversion 1. Qed.

Lemma no_label_directory_gives_empty_report_witness :
  outcome (scan_for_label_directories world_no_label_directory
             "data" "atlas_info.csv") = inr []
  ∧ events (scan_for_label_directories world_no_label_directory
              "data" "atlas_info.csv")
    = [OpenCatalog "atlas_info.csv"; Traverse "data"].
Proof.
  apply (no_label_directory_gives_empty_report world_no_label_directory
           "data" "atlas_info.csv" tree_no_label_directory {[1]}).
  - reflexivity.
  - vm_compute. reflexivity.
  - intros parent entries Hat.
    assert ((child parent target_name, Dir entries)
            ∈ rglob target_name "data" tree_no_label_directory) as Hin.
    { apply elem_of_rglob. by exists parent. }
    apply list_elem_of_In in Hin. vm_compute in Hin.
    destruct Hin as [Hin|[]]. discriminate Hin.
Defined.

Lemma scan_loop_event_kinds cwd csv_ids target_dirs results :
  Forall (fun ev => is_open_catalog ev = false)
         (events (scan_loop cwd csv_ids target_dirs results)).
Proof.
  revert results.
  induction target_dirs as [|[directory n] rest IH]; intros results.
  - cbn [scan_loop]. run. constructor.
  - cbn [scan_loop]. destruct (is_dir n); [|apply IH].
    run. rewrite process_directory_outcome, process_directory_events.
    rewrite Forall_app. split; [|apply IH].
    constructor; [done|]. rewrite Forall_app. split; [|by repeat constructor].
    apply Forall_flat_map, Forall_forall. intros e _.
    unfold file_events. destruct (decode_failure _ _); repeat constructor.
Qed.

(** X8.  Whenever the root exists and the catalog path resolves to
    something, the catalog is opened exactly once in a run, and before
    anything else happens, however many label directories are then
    processed. *)
Theorem catalog_is_opened_once w root_path csv_path tree :
  root w = Some tree →
  catalog w ≠ Missing →
  head (events (scan_for_label_directories w root_path csv_path))
  = Some (OpenCatalog csv_path)
  ∧ filter (fun ev => is_open_catalog ev = true)
           (events (scan_for_label_directories w root_path csv_path))
    = [OpenCatalog csv_path].
Proof.
  intros Hroot Hcat. unfold scan_for_label_directories. rewrite Hroot.
  run.
  assert (events (get_csv_ids csv_path (catalog w)) = [OpenCatalog csv_path]) as ->.
  { destruct (catalog w) as [|m|records ending]; [done|..];
      unfold get_csv_ids; by run. }
  split; [done|]. cbn [app]. rewrite filter_cons_True by done. f_equal.
  destruct (outcome (get_csv_ids _ _)) as [e|csv_ids]; [done|]. run.
  rewrite filter_cons_False by done.
  pose proof (scan_loop_event_kinds (cwd w) csv_ids
                (rglob target_name root_path tree) []) as Hk.
  induction Hk as [|ev evs Hev _ IH]; [done|].
  rewrite filter_cons_False; [done|]. by rewrite Hev.
Qed.

Lemma catalog_is_opened_once_witness :
  head (events (scan_for_label_directories world_two_directories
                  "data" "atlas_info.csv"))
  = Some (OpenCatalog "atlas_info.csv")
  ∧ filter (fun ev => is_open_catalog ev = true)
           (events (scan_for_label_directories world_two_directories
                      "data" "atlas_info.csv"))
    = [OpenCatalog "atlas_info.csv"].
Proof.
  apply (catalog_is_opened_once world_two_directories "data" "atlas_info.csv"
           tree_two_directories).
  - reflexivity.
  - discriminate.
Defined.

(* ===================================================================== *)
(** * Further properties of the catalog loader                            *)
(* ===================================================================== *)

Lemma data_rows_app (l1 l2 : list (list string)) :
  data_rows (l1 ++ l2) = data_rows l1 ++ data_rows l2.
Proof. unfold data_rows. apply filter_app. Qed.

Lemma load_rows_app fieldnames (pre rest : list (list string)) ending acc :
  (∀ r, r ∈ data_rows pre → ∃ z, row_id fieldnames r = inr z) →
  load_rows fieldnames (pre ++ rest) ending acc =
  load_rows fieldnames rest ending (acc ∪ list_to_set (id_values fieldnames pre)).
Proof.
  revert acc. induction pre as [|record pre IH]; intros acc Hok.
  - cbn [app]. rewrite id_values_nil. f_equal. set_solver.
  - destruct (decide (record = [])) as [->|Hne].
    + cbn [app load_rows]. rewrite id_values_skip. apply IH.
      intros r Hr. apply Hok. unfold data_rows.
      by rewrite filter_cons_False by (by intros ?).
    + assert (∀ r, r ∈ data_rows pre → ∃ z, row_id fieldnames r = inr z) as Hpre.
      { intros r Hr. apply Hok. unfold data_rows.
        rewrite filter_cons_True by done. by right. }
      destruct (Hok record) as [z Hz].
      { unfold data_rows. rewrite filter_cons_True by done. by left. }
      rewrite <- app_comm_cons, load_rows_unfold, id_values_cons, Hz by done.
      rewrite IH by done. f_equal. set_solver.
Qed.

(** X9.  A [csv.Error] raised by the reader after records that all convert
    (or on the header itself) leaves the loader as the [ValueError]
    "Error parsing CSV file: ...", and no set is returned. *)
Theorem csv_error_becomes_ValueError csv_path (records : list (list string)) m :
  (∀ fieldnames rest r,
     records = fieldnames :: rest → r ∈ data_rows rest →
     ∃ z, row_id fieldnames r = inr z) →
  outcome (get_csv_ids csv_path (CsvFile records (ReaderError m)))
  = inl (ValueError ("Error parsing CSV file: " +:+ m)).
Proof.
  intros Hok. unfold get_csv_ids. run.
  destruct records as [|fieldnames rest]; [done|].
  rewrite <- (app_nil_r rest), load_rows_app; [done|].
  intros r Hr. by apply (Hok fieldnames rest).
Qed.

Lemma csv_error_becomes_ValueError_witness :
  outcome (get_csv_ids "atlas_info.csv"
             (CsvFile [["id"; "name"]; ["1"; "root"]; []; ["2"; "grey"]]
                      (ReaderError "line contains NUL")))
  = inl (ValueError ("Error parsing CSV file: " +:+ "line contains NUL")).
Proof.
  apply (csv_error_becomes_ValueError "atlas_info.csv"
           [["id"; "name"]; ["1"; "root"]; []; ["2"; "grey"]]).
  intros fieldnames rest r [= <- <-].
  apply rows_convert_by_computation. vm_compute. reflexivity.
Defined.

(** X10.  The first row whose identifier does not convert decides how the
    load ends, whatever follows it and however the file ends.  When the
    field is a text that [int] rejects, the error is the [ValueError]
    "Invalid ID value in CSV: " followed by that text; any other exception
    of [int(row["id"])] leaves the loader as it is. *)
Theorem first_bad_row_decides_the_error csv_path fieldnames
    (pre post : list (list string)) (r : list string) ending e :
  (∀ r', r' ∈ data_rows pre → ∃ z, row_id fieldnames r' = inr z) →
  r ≠ [] →
  row_id fieldnames r = inl e →
  outcome (get_csv_ids csv_path (CsvFile (fieldnames :: pre ++ r :: post) ending))
  = inl (match make_row fieldnames r !! Some "id" with
         | Some (CStr s) => ValueError ("Invalid ID value in CSV: " +:+ s)
         | _ => e
         end).
Proof.
  intros Hpre Hne Hbad. unfold get_csv_ids. run.
  rewrite load_rows_app, load_rows_unfold, Hbad by done.
  revert Hbad. unfold row_id.
  destruct (make_row fieldnames r !! Some "id") as [[s| |l]|];
    cbn [int_of_cell cell_str].
  - destruct (parse_int s); [done|]. by intros [= <-].
  - by intros [= <-].
  - by intros [= <-].
  - by intros [= <-].
Qed.

Lemma first_bad_row_decides_the_error_witness :
  outcome (get_csv_ids "atlas_info.csv"
             (CsvFile (["id"; "name"] :: [["1"; "root"]] ++ ["2.0"; "grey"]
                         :: [["x"; "white"]]) EndOfFile))
  = inl (match make_row ["id"; "name"] ["2.0"; "grey"] !! Some "id" with
         | Some (CStr s) => ValueError ("Invalid ID value in CSV: " +:+ s)
         | _ => ValueError ("invalid literal for int() with base 10: '"
                            +:+ "2.0" +:+ "'")
         end).
Proof.
  apply (first_bad_row_decides_the_error "atlas_info.csv" ["id"; "name"]
           [["1"; "root"]] [["x"; "white"]] ["2.0"; "grey"] EndOfFile).
  - apply rows_convert_by_computation. vm_compute. reflexivity.
  - discriminate.
  - vm_compute. reflexivity.
Defined.

Lemma fill_restval_lookup_present (k : string) (keys : list string) (d : row) :
  k ∈ keys → fill_restval keys d !! Some k = Some CNone.
Proof.
  unfold fill_restval. revert d. induction keys as [|f fs IH]; intros d Hk.
  - by apply elem_of_nil in Hk.
  - cbn [foldl]. destruct (decide (k ∈ fs)) as [Hin|Hnin]; [by apply IH|].
    apply elem_of_cons in Hk as [->|]; [|done].
    fold (fill_restval fs (<[Some f := CNone]> d)).
    rewrite fill_restval_lookup_absent by (by intros x [= <-]).
    apply lookup_insert_eq.
Qed.

Lemma zip_dict_lookup_column (k v : string) (pre post record : list string)
    (d : row) :
  k ∉ post → record !! length pre = Some v →
  zip_dict (pre ++ k :: post) record d !! Some k = Some (CStr v).
Proof.
  intros Hpost. revert record d.
  induction pre as [|p pre IH]; intros record d Hv.
  - destruct record as [|x record]; [done|]. injection Hv as ->.
    cbn [app zip_dict]. rewrite zip_dict_lookup_absent by (by intros x [= <-]).
    apply lookup_insert_eq.
  - destruct record as [|x record]; [done|]. cbn [app zip_dict]. by apply IH.
Qed.

Lemma make_row_lookup_column (k v : string) (pre post record : list string) :
  k ∉ post → record !! length pre = Some v →
  make_row (pre ++ k :: post) record !! Some k = Some (CStr v).
Proof.
  intros Hpost Hv. unfold make_row.
  pose proof (lookup_lt_Some _ _ _ Hv) as Hlen.
  repeat case_match.
  - rewrite lookup_insert_ne by done. by apply zip_dict_lookup_column.
  - rewrite fill_restval_lookup_absent; [by apply zip_dict_lookup_column|].
    intros x [= <-] Hin. apply Hpost.
    rewrite drop_app_ge in Hin by lia.
    destruct (length record - length pre)%nat as [|j] eqn:Hj; [lia|].
    cbn [drop] in Hin. by eapply subseteq_drop.
  - by apply zip_dict_lookup_column.
Qed.

Lemma make_row_lookup_short (k : string) (pre post record : list string) :
  (length record ≤ length pre)%nat →
  make_row (pre ++ k :: post) record !! Some k = Some CNone.
Proof.
  intros Hlen. unfold make_row. rewrite length_app. cbn [length].
  destruct (_ <? _)%nat eqn:H1; [apply Nat.ltb_lt in H1; lia|].
  destruct (length record <? _)%nat eqn:H2; [|apply Nat.ltb_ge in H2; lia].
  apply fill_restval_lookup_present.
  rewrite <- (take_drop (length record) pre), <- app_assoc.
  rewrite drop_app_length'; [|rewrite length_take; lia].
  apply elem_of_app. right. by left.
Qed.

(** X11.  A record with too few fields to reach the [id] column makes
    [int(None)] raise [TypeError], which the loader neither catches nor
    turns into the [ValueError] it documents. *)
Theorem short_record_raises_TypeError csv_path
    (pre_names post_names : list string) (r : list string)
    (post : list (list string)) ending :
  r ≠ [] →
  (length r ≤ length pre_names)%nat →
  outcome (get_csv_ids csv_path
             (CsvFile ((pre_names ++ "id" :: post_names) :: r :: post) ending))
  = inl (TypeError "int() argument must be a string, a bytes-like object or a real number, not 'NoneType'").
Proof.
  intros Hne Hlen. unfold get_csv_ids. autorewrite with run.
  rewrite load_rows_unfold by done. unfold row_id.
  by rewrite make_row_lookup_short.
Qed.

Lemma short_record_raises_TypeError_witness :
  outcome (get_csv_ids "atlas_info.csv"
             (CsvFile ((["name"; "acronym"] ++ "id" :: ["parent"])
                         :: ["root"; "r"] :: [["grey"; "g"; "8"; "997"]])
                      EndOfFile))
  = inl (TypeError "int() argument must be a string, a bytes-like object or a real number, not 'NoneType'").
Proof.
  apply (short_record_raises_TypeError "atlas_info.csv" ["name"; "acronym"]
           ["parent"] ["root"; "r"] [["grey"; "g"; "8"; "997"]] EndOfFile).
  - discriminate.
  - cbn [length]. lia.
Defined.

Lemma row_id_column (pre post record : list string) z :
  "id" ∉ post → field_int (length pre) record = Some z →
  row_id (pre ++ "id" :: post) record = inr z.
Proof.
  intros Hpost. unfold field_int.
  destruct (record !! length pre) as [v|] eqn:Hv; [|done]. cbn. intros Hz.
  unfold row_id. rewrite (make_row_lookup_column _ v) by done.
  cbn [int_of_cell]. by rewrite Hz.
Qed.

(** X12.  The loader reads the column called [id] wherever the header puts
    it (the last one, should several bear the name): when every data row
    has an integer in that column, the catalog is the set of those
    integers, and the other columns play no part. *)
Theorem catalog_is_the_id_column csv_path (pre post : list string)
    (rows : list (list string)) :
  "id" ∉ post →
  (∀ r, r ∈ data_rows rows → ∃ z, field_int (length pre) r = Some z) →
  outcome (get_csv_ids csv_path (CsvFile ((pre ++ "id" :: post) :: rows) EndOfFile))
  = inr (list_to_set (omap (field_int (length pre)) (data_rows rows))).
Proof.
  intros Hpost Hok. apply get_csv_ids_inr. split_and!; [done| |].
  - intros r Hr. destruct (Hok r Hr) as [z Hz]. exists z. by apply row_id_column.
  - f_equal. unfold id_values.
    induction (data_rows rows) as [|r rs IH]; [done|].
    destruct (Hok r) as [z Hz]; [by left|].
    cbn [omap list_omap]. rewrite Hz, (row_id_column _ _ _ z) by done.
    f_equal. apply IH. intros r' Hr'. apply Hok. by right.
Qed.

Lemma fields_convert_by_computation i (rows : list (list string)) :
  forallb (fun r => bool_decide (is_Some (field_int i r))) (data_rows rows) = true →
  ∀ r, r ∈ data_rows rows → ∃ z, field_int i r = Some z.
Proof.
  rewrite forallb_forall. intros Hall r Hr%list_elem_of_In.
  specialize (Hall r Hr). by apply bool_decide_eq_true in Hall.
Qed.

Lemma catalog_is_the_id_column_witness :
  outcome (get_csv_ids "atlas_info.csv"
             (CsvFile ((["name"] ++ "id" :: ["parent"])
                         :: [["root"; "997"; ""]; []; ["grey"; " 8 "; "997"; "x"]])
                      EndOfFile))
  = inr (list_to_set (omap (field_int (length ["name"]))
                        (data_rows [["root"; "997"; ""]; [];
                                    ["grey"; " 8 "; "997"; "x"]]))).
Proof.
  apply (catalog_is_the_id_column "atlas_info.csv" ["name"] ["parent"]
           [["root"; "997"; ""]; []; ["grey"; " 8 "; "997"; "x"]]).
  - intros Hin. apply list_elem_of_singleton in Hin. discriminate Hin.
  - apply fields_convert_by_computation. vm_compute. reflexivity.
Defined.

(* ===================================================================== *)
(** * Further properties of [main] and of the two output modes            *)
(* ===================================================================== *)

Lemma M_eq {A} (m1 m2 : M A) :
  events m1 = events m2 → outcome m1 = outcome m2 → m1 = m2.
Proof. destruct m1, m2. unfold events, outcome. simpl. by intros -> ->. Qed.

Lemma print_results_order (O1 O2 : SetOrder) (report : dict (gset Z)) :
  @print_results O1 report = @print_results O2 report.
Proof.
  induction report as [|[d s] report IH]; [done|].
  cbn [print_results]. by rewrite IH, (sorted_canonical O1 O2).
Qed.

(** The events and the outcome of [main], spelled out. *)
Lemma main_events `{SetOrder} w a :
  events (main w a) =
  events (echo_if (verbose a)
            ("Starting scan from root directory: " +:+ root_directory a))
  ++ events (echo_if (verbose a) ("Using CSV file: " +:+ csv_path a))
  ++ events (scan_for_label_directories w (root_directory a) (csv_path a))
  ++ match outcome (scan_for_label_directories w (root_directory a) (csv_path a)) with
     | inl e => [EchoErr ("Error: " +:+ exn_str e)]
     | inr results =>
         events (echo_if (verbose a)
                   (nl +:+ "Found " +:+ pretty (length results)
                    +:+ " matching directories"))
         ++ match json_target a with
            | Some o =>
                if output_writable w
                then [WriteJson o (json_dump results);
                      Echo (nl +:+ "Results saved to: " +:+ o)]
                else [EchoErr ("Error: [Errno 13] Permission denied: '"
                               +:+ o +:+ "'")]
            | None => events (print_results results)
            end
     end.
Proof.
  unfold main. run. rewrite !outcome_echo_if. run.
  destruct (outcome (scan_for_label_directories _ _ _)) as [e|results]; run.
  - by rewrite <- !app_assoc.
  - rewrite outcome_echo_if.
    destruct (json_target a) as [o|]; [destruct (output_writable w)|]; run;
      rewrite ?print_results_outcome, ?app_nil_r, <- ?app_assoc; done.
Qed.

Lemma main_outcome `{SetOrder} w a :
  outcome (main w a) =
  match outcome (scan_for_label_directories w (root_directory a) (csv_path a)) with
  | inl _ => inl Abort
  | inr _ =>
      match json_target a with
      | Some _ => if output_writable w then inr tt else inl Abort
      | None => inr tt
      end
  end.
Proof.
  unfold main. run. rewrite !outcome_echo_if. run.
  destruct (outcome (scan_for_label_directories _ _ _)) as [e|results]; run;
    [done|].
  rewrite outcome_echo_if.
  destruct (json_target a) as [o|]; [destruct (output_writable w)|]; run;
    by rewrite ?print_results_outcome.
Qed.

(** X13.  What the console mode prints does not depend on the order in
    which the runtime iterates over sets: under any two iteration orders
    the run is the same, event for event. *)
Theorem console_output_is_independent_of_set_order (O1 O2 : SetOrder) w a :
  json_target a = None → @main O1 w a = @main O2 w a.
Proof.
  intros Hconsole. apply M_eq.
  - rewrite !main_events, Hconsole.
    destruct (outcome (scan_for_label_directories _ _ _)) as [e|results]; [done|].
    by rewrite (print_results_order O1 O2).
  - by rewrite !main_outcome.
Qed.

Lemma console_output_is_independent_of_set_order_witness :
  @main slot_order world_one_eight console_args
  = @main ascending_order world_one_eight console_args.
Proof.
  apply (console_output_is_independent_of_set_order slot_order ascending_order
           world_one_eight console_args).
  reflexivity.
Defined.

(** X14.  Whatever the iteration order, the JSON document has one member
    per entry of the report, under the entry's key and in the report's
    order, and its array holds every missing identifier of the entry once
    and nothing else. *)
Theorem json_document_matches_the_report `{SetOrder} (report : dict (gset Z)) :
  ∃ members,
    json_dump report = JObject members
    ∧ members.*1 = dict_keys report
    ∧ Forall2 (fun (e : string * gset Z) (m : string * json) =>
                 ∃ ids, m.2 = JArray (JInt <$> ids)
                        ∧ NoDup ids ∧ ∀ z, z ∈ ids ↔ z ∈ e.2)
              report members.
Proof.
  eexists. split; [reflexivity|]. split.
  - unfold dict_keys. rewrite <- list_fmap_compose. done.
  - apply Forall2_fmap_r, Forall_Forall2_diag, Forall_forall.
    intros [k s] _. exists (set_iter s). cbn [snd]. split_and!; [done| |].
    + rewrite set_iter_perm. apply NoDup_elements.
    + intros z. rewrite set_iter_perm. apply elem_of_elements.
Qed.

Lemma scan_outcome_inr w root_path csv_path :
  (∃ report, outcome (scan_for_label_directories w root_path csv_path) = inr report)
  ↔ root w ≠ None
    ∧ ∃ csv_ids, outcome (get_csv_ids csv_path (catalog w)) = inr csv_ids.
Proof.
  split.
  - intros [report Hscan]. revert Hscan. unfold scan_for_label_directories.
    destruct (root w) as [tree|]; [|done]. run.
    destruct (outcome (get_csv_ids _ _)) as [e|csv_ids]; [done|]. eauto.
  - intros [Hroot [csv_ids Hload]].
    destruct (root w) as [tree|] eqn:Hr; [|done].
    by eapply scan_completes.
Qed.

(** X15.  [main] never lets an exception through: it returns, or it
    writes one line starting with "Error: " to the error stream as its
    last act and raises [Abort].  It returns exactly when the root exists,
    the catalog loads and, if a JSON file is asked for, that file can be
    opened; failures inside label directories never make it abort. *)
Theorem main_returns_or_aborts `{SetOrder} w a :
  (outcome (main w a) = inr tt ∨ outcome (main w a) = inl Abort)
  ∧ (outcome (main w a) = inr tt ↔
     root w ≠ None
     ∧ (∃ csv_ids, outcome (get_csv_ids (csv_path a) (catalog w)) = inr csv_ids)
     ∧ (is_Some (json_target a) → output_writable w = true))
  ∧ (outcome (main w a) = inl Abort →
     ∃ msg, last (events (main w a)) = Some (EchoErr ("Error: " +:+ msg))).
Proof.
  rewrite main_outcome, main_events.
  pose proof (scan_outcome_inr w (root_directory a) (csv_path a)) as Hiff.
  destruct (outcome (scan_for_label_directories _ _ _)) as [e|report].
  - split_and!.
    + by right.
    + split; [done|]. intros (Hroot & Hload & _).
      destruct Hiff as [_ [report Hr]]; done.
    + intros _. exists (exn_str e). by rewrite !app_assoc, last_snoc.
  - destruct Hiff as [[Hroot Hload] _]; [by eexists|].
    destruct (json_target a) as [o|]; [destruct (output_writable w)|].
    + split_and!; [by left| |done]. by split.
    + split_and!; [by right| |].
      * split; [done|]. intros (_ & _ & Hw). by specialize (Hw (mk_is_Some _ _ eq_refl)).
      * intros _. eexists.
        rewrite !app_assoc. rewrite last_snoc. reflexivity.
    + split_and!; [by left| |done]. split; [|done]. intros _.
      split_and!; [done..|]. by intros [? ?].
Qed.

(** X16.  When the root path does not exist the scan raises the
    [ValueError] "Root path ... does not exist" without looking at the
    catalog, even a missing one; [main] reports it and aborts. *)
Theorem missing_root_is_reported_first `{SetOrder} w a :
  root w = None →
  scan_for_label_directories w (root_directory a) (csv_path a)
  = raise (ValueError ("Root path " +:+ root_directory a +:+ " does not exist"))
  ∧ outcome (main w a) = inl Abort
  ∧ last (events (main w a))
    = Some (EchoErr ("Error: " +:+ "Root path " +:+ root_directory a
                     +:+ " does not exist"))
  ∧ Forall (fun ev => is_open_catalog ev = false) (events (main w a)).
Proof.
  intros Hroot.
  assert (scan_for_label_directories w (root_directory a) (csv_path a)
          = raise (ValueError ("Root path " +:+ root_directory a
                               +:+ " does not exist"))) as Hscan.
  { unfold scan_for_label_directories. by rewrite Hroot. }
  rewrite main_outcome, main_events, Hscan. run. split_and!; [done..| |].
  - by rewrite !app_assoc, last_snoc.
  - rewrite !Forall_app. split_and!; try by repeat constructor.
    + destruct (verbose a); repeat constructor.
    + destruct (verbose a); repeat constructor.
Qed.

Lemma missing_root_is_reported_first_witness :
  outcome (@main slot_order
             {| cwd := "/home/u"; root := None; catalog := Missing;
                output_writable := true |} json_args) = inl Abort.
Proof.
  apply (@missing_root_is_reported_first slot_order
           {| cwd := "/home/u"; root := None; catalog := Missing;
              output_writable := true |} json_args).
  reflexivity.
Defined.

(** X17.  The progress flag changes nothing but the progress lines: with
    and without [--verbose] the run ends the same way, everything that is
    not an [echo] to standard output (the prints of the scan, the file
    reads, the JSON document, the error line) is identical, and the
    verbose run has the lines of the quiet one, in order, plus at most
    three. *)
Theorem verbose_only_adds_progress_lines `{SetOrder} w root_dir out csv :
  let quiet := {| root_directory := root_dir; output := out;
                  verbose := false; csv_path := csv |} in
  let loud := {| root_directory := root_dir; output := out;
                 verbose := true; csv_path := csv |} in
  outcome (main w loud) = outcome (main w quiet)
  ∧ filter (fun ev => is_echo ev = false) (events (main w loud))
    = filter (fun ev => is_echo ev = false) (events (main w quiet))
  ∧ events (main w quiet) `sublist_of` events (main w loud)
  ∧ (length (events (main w loud)) ≤ length (events (main w quiet)) + 3)%nat.
Proof.
  intros quiet loud. rewrite !main_outcome, !main_events.
  change (json_target loud) with (json_target quiet).
  change (root_directory loud) with root_dir.
  change (root_directory quiet) with root_dir.
  change (csv_path loud) with csv. change (csv_path quiet) with csv.
  change (verbose loud) with true. change (verbose quiet) with false.
  cbn [echo_if]. run.
  generalize (events (scan_for_label_directories w root_dir csv)).
  intros scanned.
  destruct (outcome (scan_for_label_directories w root_dir csv)) as [e|results].
  - split_and!; [done| | |].
    + by rewrite !filter_cons_False by done.
    + do 2 apply sublist_cons. done.
    + cbn [length]. lia.
  - split_and!; [done| | |].
    + rewrite !filter_cons_False by done. rewrite !filter_app.
      by rewrite filter_cons_False by done.
    + do 2 apply sublist_cons. apply sublist_app; [done|].
      by apply sublist_cons.
    + cbn [length]. rewrite !length_app. cbn [length]. lia.
Qed.

(* ===================================================================== *)
(** * Which files the reader opens                                        *)
(* ===================================================================== *)

Lemma to_list_rev_app (s1 s2 : string) :
  list_ascii_of_string (String.rev_app s1 s2)
  = rev (list_ascii_of_string s1) ++ list_ascii_of_string s2.
Proof.
  revert s2. induction s1 as [|c s1 IH]; intros s2; [done|].
  cbn [String.rev_app list_ascii_of_string rev]. rewrite IH.
  cbn [list_ascii_of_string]. by rewrite <- app_assoc.
Qed.

Lemma to_list_append (s1 s2 : string) :
  list_ascii_of_string (s1 +:+ s2)
  = list_ascii_of_string s1 ++ list_ascii_of_string s2.
Proof.
  induction s1 as [|c s1 IH]; [done|].
  change (String c s1 +:+ s2) with (String c (s1 +:+ s2)).
  cbn [list_ascii_of_string app]. by rewrite IH.
Qed.

Lemma string_prefix_list (s1 s2 : string) :
  String.prefix s1 s2 = true ↔
  ∃ k, list_ascii_of_string s2 = list_ascii_of_string s1 ++ k.
Proof.
  revert s2. induction s1 as [|a s1 IH]; intros s2.
  - destruct s2; cbn; split; eauto.
  - destruct s2 as [|b s2]; cbn [String.prefix list_ascii_of_string].
    + split; [done|]. by intros [k ?].
    + destruct (ascii_dec a b) as [->|Hne].
      * rewrite IH. split; intros [k Hk]; exists k; cbn in *; congruence.
      * split; [done|]. intros [k Hk]. cbn in Hk. congruence.
Qed.

(** A name passes the test of [*.tif] exactly when it is some text
    followed by ".tif", in these very letters. *)
Lemma is_tif_suffix name :
  is_tif name = true ↔ ∃ stem, name = stem +:+ ".tif".
Proof.
  unfold is_tif, ends_with. rewrite string_prefix_list.
  unfold String.rev. rewrite !to_list_rev_app, !app_nil_r. split.
  - intros [k Hk]. exists (string_of_list_ascii (rev k)).
    apply (f_equal (@rev ascii)) in Hk. rewrite rev_involutive, rev_app_distr,
      rev_involutive in Hk.
    rewrite <- (string_of_list_ascii_of_string name), Hk.
    rewrite <- (string_of_list_ascii_of_string (_ +:+ _)), to_list_append.
    by rewrite list_ascii_of_string_of_list_ascii.
  - intros [stem ->]. exists (rev (list_ascii_of_string stem)).
    by rewrite to_list_append, rev_app_distr.
Qed.

(** X18.  The reader opens a file of the directory exactly when its name
    ends in ".tif", in lower case; every other entry of the directory is
    left alone. *)
Theorem only_tif_names_are_opened directory_path entries file_path :
  Decode file_path
    ∈ events (get_unique_values_from_tiff_dir directory_path (Dir entries))
  ↔ ∃ stem n, (stem +:+ ".tif", n) ∈ entries
              ∧ file_path = child directory_path (stem +:+ ".tif").
Proof.
  rewrite get_unique_values_events, elem_of_cons.
  rewrite list_elem_of_In, in_flat_map. cbn [tif_files].
  setoid_rewrite <- list_elem_of_In. setoid_rewrite list_elem_of_filter.
  split.
  - intros [?|([name n] & [Htif Hin] & Hev)]; [done|].
    cbn [fst] in Htif. apply Is_true_true, is_tif_suffix in Htif as [stem ->].
    exists stem, n. split; [done|].
    unfold file_events in Hev. cbn [fst snd] in Hev.
    apply elem_of_cons in Hev as [[= ->]|Hev]; [done|].
    destruct (decode_failure _ _); set_solver.
  - intros (stem & n & Hin & ->). right.
    exists (stem +:+ ".tif", n). split.
    + split; [|done]. apply Is_true_true, is_tif_suffix. by exists stem.
    + unfold file_events. by left.
Qed.

Example upper_case_suffix_is_not_an_image :
  is_tif "a.TIF" = false ∧ is_tif "a.tiff" = false ∧ is_tif ".tif" = true.
Proof. by vm_compute. Qed.

Lemma coerce_values_same_elements_witness :
  coerce_values [SInt 3; SNaN; SFloat 7 2; SInt 3] ∅
  = coerce_values [SFloat 7 2; SInt 3; SNaN] ∅.
Proof.
  apply (coerce_values_same_elements [SInt 3; SNaN; SFloat 7 2; SInt 3]
           [SFloat 7 2; SInt 3; SNaN] ∅).
  intros v. rewrite !elem_of_cons, !elem_of_nil. tauto.
Defined.



